(** * Image-Processing-Application: adjustment pipeline and edit history

    A shallow embedding of [image_utils.py] and of the non-UI logic of
    [image_processor.py] ([update_image], the filter handlers,
    [add_to_history], [undo], [redo]), with the properties of the
    specification stated and settled on it.

    Modelling conventions.
    - A Pillow image is a raster: mode, size and one list of 8-bit samples
      per band, row-major.  [image.copy()] is the identity on values.
    - A Python float is modelled by the rational it denotes; comparisons and
      [int()] are then exact.  Every arithmetic operation on floats and
      every float literal is rounded to binary64, to the nearest float with
      ties to even, and the [float] that Pillow's C code computes with is
      rounded to binary32 ([Module IEEE]).  Infinities and NaN are not
      modelled: a result beyond the largest float is left as it is.
    - Pillow operations whose result is a per-sample formula ([Image.blend],
      [ImageEnhance], [convert], [ImageOps.invert], ...) are written out in
      [Module PIL] as Pillow computes them.  The spatial filters, the
      resampling and the histogram operations are not part of the sources:
      they are the fields of the record [Pillow], over which the embedded
      functions are parametrised.  They are total functions; the ValueError
      of a rank filter of even size is raised by the code that calls them
      ([filter_raises]).
    - [np.random] is a stream of samples, threaded through the calls that
      draw from it.
    - Tk widgets are reduced to the values they hold; drawing on the canvas
      has no effect on the state modelled here. *)

From Stdlib Require Import ZArith QArith Qround Qabs Qpower Lqa.
From Stdlib Require Import String List Bool Lia.
Import ListNotations.

Local Open Scope Z_scope.

(** ** Python numbers *)

(** [int(x)] on a float: truncation toward zero. *)
Definition py_int (x : Q) : Z := Z.quot (Qnum x) (Zpos (Qden x)).

(** [round(x)] on a float: to the nearest integer, ties to the even one. *)
Definition py_round (x : Q) : Z :=
  let f := Qfloor x in
  let r := (x - inject_Z f)%Q in
  if Qle_bool r (1 # 2)
  then if Qeq_bool r (1 # 2) then (if Z.even f then f else f + 1) else f
  else f + 1.

(** ** IEEE 754 binary floating point *)

Module IEEE.

Definition pow2 (e : Z) : Q := (2 ^ e)%Q.

(** The exponent [e] with [2^e <= x < 2^(e+1)], for a positive [x]. *)
Definition ilog2 (x : Q) : Z :=
  let k := Z.log2 (Qnum x) - Z.log2 (Zpos (Qden x)) in
  if Qle_bool (pow2 k) x then k else k - 1.

(** The float nearest to a non-negative [x], ties to the even significand,
    in the format of precision [prec] whose least positive number is
    [2^emin]: [x] is rounded to a multiple of its unit in the last place. *)
Definition round_pos (prec emin : Z) (x : Q) : Q :=
  let e := Z.max (ilog2 x - prec + 1) emin in
  (inject_Z (py_round (x / pow2 e)) * pow2 e)%Q.

Definition round (prec emin : Z) (x : Q) : Q :=
  let x := Qred x in
  Qred (if Qle_bool 0 x then round_pos prec emin x
        else - round_pos prec emin (- x))%Q.

(** Python's [float] and C's [double]. *)
Definition binary64 : Q -> Q := round 53 (-1074).

(** C's [float]. *)
Definition binary32 : Q -> Q := round 24 (-149).

End IEEE.

(** A float literal, and an [int] converted to [float]. *)
Definition float_of (x : Q) : Q := IEEE.binary64 x.

(** [x + y], [x - y], [x * y] and [x / y] on floats; [n / m] on two ints is
    [fdiv] as well, Python rounding the exact quotient. *)
Definition fadd (x y : Q) : Q := IEEE.binary64 (x + y).
Definition fsub (x y : Q) : Q := IEEE.binary64 (x - y).
Definition fmul (x y : Q) : Q := IEEE.binary64 (x * y).
Definition fdiv (x y : Q) : Q := IEEE.binary64 (x / y).

Definition Qltb (a b : Q) : bool := negb (Qle_bool b a).
Definition Qneqb (a b : Q) : bool := negb (Qeq_bool a b).

(** Python's [min] and [max] on floats. *)
Definition py_minQ (a b : Q) : Q := if Qltb b a then b else a.
Definition py_maxQ (a b : Q) : Q := if Qltb a b then b else a.

(** Exceptions the embedded code can raise. *)
Inductive exn := ZeroDivisionError | ValueError | IndexError.

Inductive result (A : Type) :=
| Ok (a : A)
| Raise (e : exn).
Arguments Ok {A} a.
Arguments Raise {A} e.

(** ** Rasters *)

Inductive Mode := L | RGB.

Definition Mode_eqb (a b : Mode) : bool :=
  match a, b with
  | L, L | RGB, RGB => true
  | _, _ => false
  end.

Record Image := mkImage {
  mode : Mode;
  size : Z * Z;              (* (width, height) *)
  bands : list (list Z)      (* one row-major plane per band *)
}.

Definition npixels (sz : Z * Z) : nat := Z.to_nat (fst sz * snd sz).

Definition nbands (m : Mode) : nat :=
  match m with L => 1%nat | RGB => 3%nat end.

Definition sample_ok (v : Z) : Prop := 0 <= v <= 255.

(** What Pillow guarantees of every image object. *)
Record wf_image (img : Image) : Prop := {
  wf_bands : length (bands img) = nbands (mode img);
  wf_plane : Forall (fun b => length b = npixels (size img)) (bands img);
  wf_sample : Forall (Forall sample_ok) (bands img)
}.

(** Element-wise combination of two planes. *)
Fixpoint zipWith {A B C} (f : A -> B -> C) (xs : list A) (ys : list B) : list C :=
  match xs, ys with
  | x :: xs', y :: ys' => f x y :: zipWith f xs' ys'
  | _, _ => []
  end.

Module PIL.

(** [Image.new(mode, size, color)] with one colour value per band. *)
Definition new (m : Mode) (sz : Z * Z) (color : list Z) : Image :=
  mkImage m sz (map (fun c => repeat c (npixels sz)) (firstn (nbands m) color)).

(** ITU-R 601-2 luma as Pillow computes it for [convert('L')]. *)
Definition luma (r g b : Z) : Z :=
  Z.shiftr (r * 19595 + g * 38470 + b * 7471 + 32768) 16.

Fixpoint luma_plane (rs gs bs : list Z) : list Z :=
  match rs, gs, bs with
  | r :: rs', g :: gs', b :: bs' => luma r g b :: luma_plane rs' gs' bs'
  | _, _, _ => []
  end.

(** [image.convert(mode)] between the two modes the application uses. *)
Definition convert (m : Mode) (img : Image) : Image :=
  match mode img, m with
  | RGB, L =>
      mkImage L (size img)
        [luma_plane (nth 0 (bands img) []) (nth 1 (bands img) [])
                    (nth 2 (bands img) [])]
  | L, RGB =>
      let y := nth 0 (bands img) [] in
      mkImage RGB (size img) [y; y; y]
  | _, _ => img
  end.

(** The saturating conversion of the extrapolating branch of
    [ImagingBlend]. *)
Definition clip8 (v : Q) : Z :=
  if Qle_bool v 0 then 0
  else if Qle_bool 255 v then 255
  else Qfloor v.

(** One sample of the loops of [ImagingBlend], whose [alpha] is a C float:
    [in1 + alpha * (in2 - in1)] is computed in single precision, the
    product rounded and then the sum. *)
Definition blend_sample (alpha : Q) (in1 in2 : Z) : Z :=
  let temp :=
    IEEE.binary32
      (inject_Z in1
       + IEEE.binary32 (alpha * (inject_Z in2 - inject_Z in1)))%Q in
  if Qle_bool 0 alpha && Qle_bool alpha 1
  then Qfloor temp mod 256     (* interpolation: a plain cast to UINT8 *)
  else clip8 temp.             (* extrapolation: clipped *)

(** [Image.blend(im1, im2, alpha)]: the Python float is cast to a C float;
    at 0.0 and at 1.0 the result is a copy of [im1] and of [im2].  The two
    images have the same mode and size, which are those of the result
    (Pillow raises ValueError when they differ). *)
Definition blend (im1 im2 : Image) (alpha : Q) : Image :=
  let alpha := IEEE.binary32 alpha in
  if Qeq_bool alpha 0 then im1
  else if Qeq_bool alpha 1 then mkImage (mode im1) (size im1) (bands im2)
  else
    mkImage (mode im1) (size im1)
      (zipWith (zipWith (blend_sample alpha)) (bands im1) (bands im2)).

(** [ImageStat.Stat(image).mean[0]] of an L image: the sum of the samples
    divided by their number, as floats.  Pillow accumulates the sum in a
    float: sum and number are exact below 2^53, so for fewer than 2^45
    pixels.  On an image without pixels the mean is 0. *)
Definition mean0 (img : Image) : Q :=
  let y := nth 0 (bands img) [] in
  let total := fold_right Z.add 0 y in
  let count := Z.of_nat (length y) in
  fdiv (inject_Z total) (inject_Z count).

(** [ImageEnhance.Brightness(image).enhance(factor)]: blend with black. *)
Definition Brightness_enhance (image : Image) (factor : Q) : Image :=
  blend (new (mode image) (size image) [0; 0; 0]) image factor.

(** [ImageEnhance.Contrast(image).enhance(factor)]: blend with the solid
    grey whose level is the rounded mean of the L conversion. *)
Definition Contrast_mean (image : Image) : Z :=
  py_int (fadd (mean0 (convert L image)) (1 # 2)).

Definition Contrast_enhance (image : Image) (factor : Q) : Image :=
  let degenerate :=
    convert (mode image) (new L (size image) [Contrast_mean image]) in
  blend degenerate image factor.

(** [ImageEnhance.Color(image).enhance(factor)]: blend with the grey
    version of the image. *)
Definition Color_enhance (image : Image) (factor : Q) : Image :=
  blend (convert (mode image) (convert L image)) image factor.

(** [image.point(f)]. *)
Definition point (f : Z -> Z) (img : Image) : Image :=
  mkImage (mode img) (size img) (map (map f) (bands img)).

(** [ImageOps.invert(image)]. *)
Definition invert (img : Image) : Image := point (fun v => 255 - v) img.

(** [ImageOps.grayscale(image)]. *)
Definition grayscale (img : Image) : Image := convert L img.

(** [image.split()[i]]: band [i] as an L image. *)
Definition getband (i : nat) (img : Image) : Image :=
  mkImage L (size img) [nth i (bands img) []].

(** [Image.merge('RGB', (r, g, b))] of three L images. *)
Definition merge_RGB (r g b : Image) : Image :=
  mkImage RGB (size r)
    [nth 0 (bands r) []; nth 0 (bands g) []; nth 0 (bands b) []].

(** [image.filter] with a [MedianFilter], a [MinFilter] or a [MaxFilter]
    accepts an odd, positive size whose square, times four, fits a C int;
    for another size it raises ValueError. *)
Definition rank_size_ok (size : Z) : bool :=
  Z.odd size && (0 <? size) && (size <=? 23170).

End PIL.

(** ** NumPy arrays *)

Module np.

(** An array of samples: the planes of a [(h, w)] or [(h, w, 3)] array
    together with the raster size it came from. *)
Record ndarray (A : Type) := mk { shape : Z * Z; planes : list (list A) }.
Arguments mk {A} shape planes.
Arguments shape {A} n.
Arguments planes {A} n.

Definition array (img : Image) : ndarray Z := mk (size img) (bands img).

Definition amap {A B} (f : A -> B) (a : ndarray A) : ndarray B :=
  mk (shape a) (map (map f) (planes a)).

(** Storing a float into a [uint8] cell: truncated, then reduced modulo
    256 (the conversion is exact for values in [0, 256)). *)
Definition to_uint8 (v : Q) : Z := py_int v mod 256.

(** [np.clip(v, lo, hi)] on one element. *)
Definition clip1 (lo hi v : Q) : Q := py_minQ (py_maxQ v lo) hi.

(** [Image.fromarray(a)] for a [uint8] array: one plane is an L image,
    three planes an RGB image. *)
Definition fromarray (a : ndarray Z) : Image :=
  mkImage (match planes a with [_] => L | _ => RGB end) (shape a) (planes a).

(** The state of [np.random]: the samples that the following calls of
    [np.random.normal(0, 5, ...)] will return, in order. *)
Definition RandomState := nat -> Q.

Definition normal (n : nat) (rs : RandomState) : list Q * RandomState :=
  (map rs (seq 0 n), fun k => rs (n + k)%nat).

End np.

(** ** The Pillow operations outside the sources *)

Inductive ImageFilter :=
| GaussianBlur (radius : Q)
| MedianFilter (size : Z)
| ModeFilter (size : Z)
| MinFilter (size : Z)
| MaxFilter (size : Z)
| BLUR | CONTOUR | DETAIL | EDGE_ENHANCE | EDGE_ENHANCE_MORE
| EMBOSS | FIND_EDGES | SHARPEN | SMOOTH | SMOOTH_MORE.

Record Pillow := {
  (* image.filter(f) *)
  filter : ImageFilter -> Image -> Image;
  (* ImageOps.equalize(image) *)
  equalize : Image -> Image;
  (* ImageOps.autocontrast(image, cutoff) *)
  autocontrast : Image -> Q -> Image;
  (* ImageOps.posterize(image, bits) *)
  posterize : Image -> Z -> Image;
  (* ImageChops.multiply(image1, image2) *)
  multiply : Image -> Image -> Image;
  (* Image.composite(image1, image2, mask) *)
  composite : Image -> Image -> Image -> Image;
  (* ImageDraw.Draw(image).ellipse([(x0, y0), (x1, y1)], fill): the image
     after the drawing *)
  ellipse : Image -> (Z * Z) * (Z * Z) -> Z -> Image;
  (* image.crop((left, top, right, bottom)) *)
  crop : Image -> Z * Z * Z * Z -> Image;
  (* image.resize((w, h), Image.LANCZOS) *)
  resize : Image -> Z * Z -> result Image
}.

(** ** image_utils.py *)

Section ImageUtils.

Variable px : Pillow.
Variable NUMPY_AVAILABLE : bool.

Definition ensure_RGB (img : Image) : Image :=
  if negb (Mode_eqb (mode img) RGB) then PIL.convert RGB img else img.

Definition adjust_brightness_contrast
    (image : Image) (brightness contrast : Q) : Image :=
  let img := image in
  let img := ensure_RGB img in
  let img :=
    if Qneqb brightness 0 then
      let brightness_factor := fadd 1 (fdiv brightness 100) in
      PIL.Brightness_enhance img brightness_factor
    else img in
  let img :=
    if Qneqb contrast 1 then PIL.Contrast_enhance img contrast else img in
  img.

Definition adjust_brightness_contrast_numpy
    (image : Image) (brightness contrast : Q) : Image :=
  if negb NUMPY_AVAILABLE then
    adjust_brightness_contrast image brightness contrast
  else
    let img_array := np.amap inject_Z (np.array image) in
    let brightness_value := fmul brightness (float_of (255 # 100)) in
    let img_array := np.amap (fun v => fadd v brightness_value) img_array in
    let img_array :=
      np.amap (fun v => fadd (fmul (fsub v 128) contrast) 128) img_array in
    let img_array :=
      np.amap (fun v => np.to_uint8 (np.clip1 0 255 v)) img_array in
    np.fromarray img_array.

Definition filters : list (string * ImageFilter) :=
  [ ("blur", BLUR); ("contour", CONTOUR); ("detail", DETAIL);
    ("edge_enhance", EDGE_ENHANCE);
    ("edge_enhance_more", EDGE_ENHANCE_MORE); ("emboss", EMBOSS);
    ("find_edges", FIND_EDGES); ("sharpen", SHARPEN); ("smooth", SMOOTH);
    ("smooth_more", SMOOTH_MORE) ]%string.

Fixpoint dict_get {V} (d : list (string * V)) (k : string) : option V :=
  match d with
  | [] => None
  | (k', v) :: d' => if String.eqb k k' then Some v else dict_get d' k
  end.

Definition apply_filter (image : Image) (filter_name : string) : Image :=
  match dict_get filters filter_name with
  | Some f => filter px f image
  | None => image
  end.

Definition apply_gaussian_blur (image : Image) (radius : Q) : Image :=
  filter px (GaussianBlur radius) image.

Definition adjust_saturation (image : Image) (factor : Q) : Image :=
  PIL.Color_enhance image factor.

Definition adjust_hue (image : Image) (shift : Z) : Image :=
  let image := ensure_RGB image in
  let r := PIL.getband 0 image in
  let g := PIL.getband 1 image in
  let b := PIL.getband 2 image in
  let normalized_shift := fdiv (inject_Z (shift mod 360)) 360 in
  if Qltb normalized_shift (fdiv 1 3) then
    PIL.merge_RGB b r g
  else if Qltb normalized_shift (fdiv 2 3) then
    PIL.merge_RGB g b r
  else image.

Definition apply_histogram_equalization
    (image : Image) (intensity : Q) : Image :=
  let img := ensure_RGB image in
  if NUMPY_AVAILABLE then
    let l_channel := equalize px (PIL.grayscale img) in
    let equalized := l_channel in
    let equalized :=
      if Qltb intensity 1 then
        let original_l := PIL.grayscale img in
        PIL.blend original_l l_channel intensity
      else equalized in
    let result := img in
    PIL.Brightness_enhance result (float_of (12 # 10))
  else
    let gray := PIL.grayscale img in
    let equalized_gray := equalize px gray in
    let enhanced :=
      PIL.Contrast_enhance img (fadd 1 (fmul intensity (1 # 2))) in
    if Qltb intensity 1 then PIL.blend img enhanced intensity
    else enhanced.

Definition apply_pencil_sketch
    (image : Image) (intensity : Q) (rs : np.RandomState)
    : Image * np.RandomState :=
  let image := ensure_RGB image in
  let img := image in
  let gray := PIL.convert L img in
  let blur_radius := Z.max 1 (py_int (fmul intensity 3)) in
  let blurred := filter px (GaussianBlur (inject_Z blur_radius)) gray in
  let edges := filter px FIND_EDGES blurred in
  let inverted_edges := PIL.invert edges in
  let enhanced_edges :=
    PIL.Contrast_enhance inverted_edges (fadd 1 intensity) in
  let white_bg := PIL.new L (size img) [255] in
  let blend_factor := py_minQ 1 (fmul intensity (float_of (8 # 10))) in
  let sketch := PIL.blend white_bg enhanced_edges blend_factor in
  let '(sketch, rs) :=
    if NUMPY_AVAILABLE then
      let sketch_array := np.array sketch in
      let y := nth 0 (np.planes sketch_array) [] in
      let '(samples, rs') := np.normal (length y) rs in
      let noise := map np.to_uint8 samples in
      (* uint8 + uint8 wraps around before np.clip sees the sum *)
      let summed := zipWith (fun s n => (s + n) mod 256) y noise in
      (np.fromarray (np.mk (np.shape sketch_array) [summed]), rs')
    else (sketch, rs) in
  (PIL.convert RGB sketch, rs).

Definition sepia_matrix : list Q :=
  map float_of
    [ 393 # 1000; 769 # 1000; 189 # 1000;
      349 # 1000; 686 # 1000; 168 # 1000;
      272 # 1000; 534 # 1000; 131 # 1000 ]%Q.

Fixpoint sepia_plane (m0 m1 m2 : Q) (rs gs bs : list Z) : list Z :=
  match rs, gs, bs with
  | r :: rs', g :: gs', b :: bs' =>
      np.to_uint8
        (fadd (fadd (fmul (inject_Z r) m0) (fmul (inject_Z g) m1))
              (fmul (inject_Z b) m2))
        :: sepia_plane m0 m1 m2 rs' gs' bs'
  | _, _, _ => []
  end.

Definition apply_sepia (image : Image) : Image :=
  let image := ensure_RGB image in
  if NUMPY_AVAILABLE then
    let img_array := np.array image in
    let c i := nth i (np.planes img_array) [] in
    let m i := nth i sepia_matrix 0%Q in
    (* the rows are stored into a uint8 array, so np.clip finds every
       element already in range *)
    let row k :=
      sepia_plane (m (3 * k)%nat) (m (3 * k + 1)%nat) (m (3 * k + 2)%nat)
                  (c 0%nat) (c 1%nat) (c 2%nat) in
    np.fromarray (np.mk (np.shape img_array) [row 0%nat; row 1%nat; row 2%nat])
  else
    let sepia_image := adjust_saturation image (float_of (3 # 10)) in
    adjust_brightness_contrast sepia_image 10 (float_of (11 # 10)).

Definition crop_image (image : Image) (left top right bottom : Z)
    : result Image :=
  let '(width, height) := size image in
  let left := Z.max 0 (Z.min left width) in
  let top := Z.max 0 (Z.min top height) in
  let right := Z.max 0 (Z.min right width) in
  let bottom := Z.max 0 (Z.min bottom height) in
  if (right <=? left) || (bottom <=? top) then Ok image
  else Ok (crop px image (left, top, right, bottom)).

Definition resize_image
    (image : Image) (width height : Z) (keep_aspect_ratio : bool)
    : result Image :=
  if (width <=? 0) || (height <=? 0) then Ok image
  else if keep_aspect_ratio then
    let '(original_width, original_height) := size image in
    if (original_width =? 0) || (original_height =? 0)
    then Raise ZeroDivisionError
    else
      let ratio :=
        py_minQ (fdiv (inject_Z width) (inject_Z original_width))
                (fdiv (inject_Z height) (inject_Z original_height)) in
      let new_width :=
        py_int (fmul (float_of (inject_Z original_width)) ratio) in
      let new_height :=
        py_int (fmul (float_of (inject_Z original_height)) ratio) in
      resize px image (new_width, new_height)
  else resize px image (width, height).

Definition resize_by_percentage (image : Image) (percentage : Q)
    : result Image :=
  if Qle_bool percentage 0 then Ok image
  else
    let '(original_width, original_height) := size image in
    let new_width :=
      py_int (fdiv (fmul (float_of (inject_Z original_width)) percentage)
                   100) in
    let new_height :=
      py_int (fdiv (fmul (float_of (inject_Z original_height)) percentage)
                   100) in
    resize px image (new_width, new_height).

End ImageUtils.

(** ** image_processor.py: the state of [ImageProcessorApp] *)

Inductive StatusText :=
| Text (s : string)
| AdjustmentSummary (brightness contrast saturation : Q) (hue : Z)
                    (filter_name : string).

Record App := mkApp {
  original_image : option Image;
  processed_image : option Image;
  brightness_slider : Q;
  contrast_slider : Q;
  saturation_slider : Q;
  hue_slider : Z;
  current_brightness : Q;
  current_contrast : Q;
  current_saturation : Q;
  current_hue : Z;
  current_filter : string;
  filter_intensity : Q;
  real_time_preview : bool;
  history : list Image;
  history_position : Z;
  max_history : Z;
  status_bar : StatusText;
  np_random : np.RandomState        (* the process-wide state of np.random *)
}.

Definition set_processed_image (v : option Image) (a : App) : App :=
  mkApp (original_image a) v (brightness_slider a) (contrast_slider a)
    (saturation_slider a) (hue_slider a) (current_brightness a)
    (current_contrast a) (current_saturation a) (current_hue a)
    (current_filter a) (filter_intensity a) (real_time_preview a) (history a)
    (history_position a) (max_history a) (status_bar a) (np_random a).

Definition set_current (b c s : Q) (h : Z) (a : App) : App :=
  mkApp (original_image a) (processed_image a) (brightness_slider a)
    (contrast_slider a) (saturation_slider a) (hue_slider a) b c s h
    (current_filter a) (filter_intensity a) (real_time_preview a) (history a)
    (history_position a) (max_history a) (status_bar a) (np_random a).

Definition set_history (v : list Image) (a : App) : App :=
  mkApp (original_image a) (processed_image a) (brightness_slider a)
    (contrast_slider a) (saturation_slider a) (hue_slider a)
    (current_brightness a) (current_contrast a) (current_saturation a)
    (current_hue a) (current_filter a) (filter_intensity a)
    (real_time_preview a) v (history_position a) (max_history a)
    (status_bar a) (np_random a).

Definition set_history_position (v : Z) (a : App) : App :=
  mkApp (original_image a) (processed_image a) (brightness_slider a)
    (contrast_slider a) (saturation_slider a) (hue_slider a)
    (current_brightness a) (current_contrast a) (current_saturation a)
    (current_hue a) (current_filter a) (filter_intensity a)
    (real_time_preview a) (history a) v (max_history a) (status_bar a)
    (np_random a).

Definition set_status_bar (v : StatusText) (a : App) : App :=
  mkApp (original_image a) (processed_image a) (brightness_slider a)
    (contrast_slider a) (saturation_slider a) (hue_slider a)
    (current_brightness a) (current_contrast a) (current_saturation a)
    (current_hue a) (current_filter a) (filter_intensity a)
    (real_time_preview a) (history a) (history_position a) (max_history a) v
    (np_random a).

Definition set_np_random (v : np.RandomState) (a : App) : App :=
  mkApp (original_image a) (processed_image a) (brightness_slider a)
    (contrast_slider a) (saturation_slider a) (hue_slider a)
    (current_brightness a) (current_contrast a) (current_saturation a)
    (current_hue a) (current_filter a) (filter_intensity a)
    (real_time_preview a) (history a) (history_position a) (max_history a)
    (status_bar a) v.

(** ** Python lists *)

Definition len {A} (l : list A) : Z := Z.of_nat (length l).

(** [l[:k]]: a negative [k] counts from the end. *)
Definition py_slice_to {A} (l : list A) (k : Z) : list A :=
  if k <? 0 then firstn (Z.to_nat (len l + k)) l else firstn (Z.to_nat k) l.


(** ** History management *)

Definition add_to_history (self : App) : App :=
  match processed_image self with
  | Some img =>
      let self :=
        if history_position self <? len (history self) - 1
        then set_history
               (py_slice_to (history self) (history_position self + 1)) self
        else self in
      let self := set_history (history self ++ [img]) self in
      let self := set_history_position (len (history self) - 1) self in
      if len (history self) >? max_history self then
        let self := set_history (tl (history self)) self in
        set_history_position (history_position self - 1) self
      else self
  | None => self
  end.



(** ** How a method call ends

    A method of the application returns, or is left by an exception.  The
    methods modelled below are Tk callbacks: Tk reports the exception and
    the main loop goes on, with the object in the state the exception left
    it in.  [Ended] holds that state and the exception, if any; where an
    application state is expected, an [Ended] stands for its state. *)

Record Ended := ended { state_of :> App; raised : option exn }.

Definition returns (self : App) : Ended := ended self None.
Definition raises (e : exn) (self : App) : Ended := ended self (Some e).

(** The rest of a method after a call: skipped when the call raised. *)
Definition and_then (call : Ended) (rest : App -> Ended) : Ended :=
  match raised call with
  | Some _ => call
  | None => rest (state_of call)
  end.

(** ** The adjustment and filter pipeline *)

Section Pipeline.

Variable px : Pillow.
Variable NUMPY_AVAILABLE : bool.

(** [range(n, 0, -1)] *)
Definition range_down (n : Z) : list Z :=
  map Z.of_nat (rev (seq 1 (Z.to_nat n))).

(** The [if current_filter == ...: ... elif ...] chain of [update_image]:
    the image after the selected filter, and the state of [np.random]. *)
Definition apply_current_filter
    (self : App) (img : Image) (current_filter : string) (intensity : Q)
    : Image * np.RandomState :=
  let rs := np_random self in
  let chosen name := String.eqb current_filter name in
  if chosen "grayscale"%string then
    (PIL.convert RGB (PIL.convert L img), rs)
  else if chosen "sepia"%string then
    (apply_sepia NUMPY_AVAILABLE img, rs)
  else if chosen "invert"%string then
    (PIL.invert img, rs)
  else if chosen "brightness"%string then
    (adjust_brightness_contrast img (fmul 50 intensity)
       (current_contrast self), rs)
  else if chosen "contrast"%string then
    (adjust_brightness_contrast img (current_brightness self)
       (fadd 1 intensity), rs)
  else if chosen "saturation"%string then
    (adjust_saturation img (fadd 1 intensity), rs)
  else if chosen "gaussian_blur"%string then
    (filter px (GaussianBlur (fmul intensity 5)) img, rs)
  else if chosen "median_blur"%string then
    (filter px (MedianFilter (py_int (fmul intensity 5))) img, rs)
  else if chosen "sharpen"%string then
    let img := filter px SHARPEN img in
    let img :=
      if Qltb 1 intensity
      then Nat.iter (Z.to_nat (py_int intensity)) (filter px SHARPEN) img
      else img in
    (img, rs)
  else if chosen "edge_detection"%string then
    (filter px FIND_EDGES img, rs)
  else if chosen "emboss"%string then
    (filter px EMBOSS img, rs)
  else if chosen "threshold"%string then
    let gray := PIL.convert L img in
    let threshold := py_int (fmul 128 intensity) in
    (PIL.convert RGB
       (PIL.point (fun x => if x >? threshold then 255 else 0) gray), rs)
  else if chosen "histogram_eq"%string then
    (apply_histogram_equalization px NUMPY_AVAILABLE img intensity, rs)
  else if chosen "color_balance"%string then
    let r := autocontrast px (PIL.getband 0 img) (fmul intensity 10) in
    let g := autocontrast px (PIL.getband 1 img) (fmul intensity 10) in
    let b := autocontrast px (PIL.getband 2 img) (fmul intensity 10) in
    (PIL.merge_RGB r g b, rs)
  else if chosen "vignette"%string then
    let '(width, height) := size img in
    let mask := PIL.new L (width, height) [0] in
    let half := Z.min width height / 2 in
    let mask :=
      fold_left
        (fun mask i =>
           let opacity :=
             py_int (fmul 255 (fdiv (inject_Z i) (inject_Z half))) in
           ellipse px mask
             ((width / 2 - i, height / 2 - i), (width / 2 + i, height / 2 + i))
             opacity)
        (range_down half) mask in
    (composite px img (PIL.new RGB (size img) [30; 20; 10]) mask, rs)
  else if chosen "cartoonify"%string then
    let edges := filter px FIND_EDGES img in
    let edges := PIL.invert (PIL.convert L edges) in
    let color := posterize px img 4 in
    (multiply px color (PIL.convert RGB edges), rs)
  else if chosen "oil_painting"%string then
    let img := filter px (ModeFilter (py_int (fmul intensity 5))) img in
    (PIL.Contrast_enhance img (15 # 10), rs)
  else if chosen "pencil_sketch"%string then
    apply_pencil_sketch px NUMPY_AVAILABLE img intensity rs
  else if chosen "erosion"%string then
    (filter px (MinFilter (py_int (fmul intensity 5))) img, rs)
  else if chosen "dilation"%string then
    (filter px (MaxFilter (py_int (fmul intensity 5))) img, rs)
  else if chosen "opening"%string then
    let img := filter px (MinFilter (py_int (fmul intensity 5))) img in
    (filter px (MaxFilter (py_int (fmul intensity 5))) img, rs)
  else if chosen "closing"%string then
    let img := filter px (MaxFilter (py_int (fmul intensity 5))) img in
    (filter px (MinFilter (py_int (fmul intensity 5))) img, rs)
  else (img, rs).

(** Whether the chain above is left by the ValueError of a rank filter:
    the five filters that build a [MedianFilter], a [MinFilter] or a
    [MaxFilter] of size [int(intensity * 5)] raise it when that size is
    even or zero, at their first call of [image.filter].  For an intensity
    of the slider, from 0.1 to 2.0, no other call of the chain raises. *)
Definition filter_raises (current_filter : string) (intensity : Q) : bool :=
  let chosen name := String.eqb current_filter name in
  (chosen "median_blur"%string || chosen "erosion"%string
   || chosen "dilation"%string || chosen "opening"%string
   || chosen "closing"%string)
  && negb (PIL.rank_size_ok (py_int (fmul intensity 5))).

(** Steps 1 to 3 of [update_image]: brightness and contrast, saturation,
    hue, from the values stored in [current_*]. *)
Definition apply_adjustments (self : App) (img : Image) : Image :=
  let img :=
    adjust_brightness_contrast img (current_brightness self)
                               (current_contrast self) in
  let img :=
    if Qneqb (current_saturation self) 1
    then adjust_saturation img (current_saturation self) else img in
  let img :=
    if negb (current_hue self =? 0)
    then adjust_hue img (current_hue self) else img in
  img.

(** [args and args[0] == s] and [args and args[0] != s] as truth values. *)
Definition arg0_is (args : list string) (s : string) : bool :=
  match args with a :: _ => String.eqb a s | [] => false end.

Definition arg0_is_not (args : list string) (s : string) : bool :=
  match args with a :: _ => negb (String.eqb a s) | [] => false end.

Definition update_image (self : App) (args : list string) : Ended :=
  match original_image self with
  | None => returns self
  | Some original =>
      if negb (real_time_preview self) && arg0_is_not args "force"
      then returns self
      else
        let brightness := brightness_slider self in
        let contrast := contrast_slider self in
        let saturation := saturation_slider self in
        let hue := hue_slider self in
        let adjustments_changed :=
          Qneqb brightness (current_brightness self)
          || Qneqb contrast (current_contrast self)
          || Qneqb saturation (current_saturation self)
          || negb (hue =? current_hue self)
          || arg0_is args "force" in
        if negb adjustments_changed && (match args with [] => true | _ => false end)
        then returns self
        else
          let self := set_current brightness contrast saturation hue self in
          let img := original in
          let img := apply_adjustments self img in
          let current_filter := current_filter self in
          let intensity := filter_intensity self in
          if negb (String.eqb current_filter "none") then
            if filter_raises current_filter intensity
            then raises ValueError self
            else
              let '(img, rs) :=
                apply_current_filter self img current_filter intensity in
              let self := set_np_random rs self in
              let self := set_processed_image (Some img) self in
              let self :=
                set_status_bar
                  (AdjustmentSummary (current_brightness self)
                     (current_contrast self) (current_saturation self)
                     (current_hue self) current_filter) self in
              returns
                (if arg0_is_not args "history" then add_to_history self
                 else self)
          else returns self
  end.

End Pipeline.

(** The two handlers of the filter panel. *)

Definition set_filter_intensity (v : Q) (a : App) : App :=
  mkApp (original_image a) (processed_image a) (brightness_slider a)
    (contrast_slider a) (saturation_slider a) (hue_slider a)
    (current_brightness a) (current_contrast a) (current_saturation a)
    (current_hue a) (current_filter a) v (real_time_preview a) (history a)
    (history_position a) (max_history a) (status_bar a) (np_random a).

(** [self.current_filter.set(name)] *)
Definition set_current_filter (name : string) (a : App) : App :=
  mkApp (original_image a) (processed_image a) (brightness_slider a)
    (contrast_slider a) (saturation_slider a) (hue_slider a)
    (current_brightness a) (current_contrast a) (current_saturation a)
    (current_hue a) name (filter_intensity a) (real_time_preview a)
    (history a) (history_position a) (max_history a) (status_bar a)
    (np_random a).

Module ImageProcessorApp.

Section Handlers.

Variable px : Pillow.
Variable NUMPY_AVAILABLE : bool.

Definition apply_filter (self : App) (filter_name : string) : Ended :=
  match processed_image self with
  | Some _ =>
      let self := set_current_filter filter_name self in
      and_then (update_image px NUMPY_AVAILABLE self ["force"%string])
        (fun self =>
           let self := add_to_history self in
           returns
             (set_status_bar (Text ("Applied filter: " ++ filter_name)) self))
  | None => returns self
  end.

Definition reset_filter (self : App) : Ended :=
  match processed_image self with
  | Some _ =>
      let self := set_current_filter "none" self in
      let self := set_filter_intensity 1 self in
      and_then (update_image px NUMPY_AVAILABLE self ["force"%string])
        (fun self =>
           let self := add_to_history self in
           returns (set_status_bar (Text "Filters reset") self))
  | None => returns self
  end.

End Handlers.

End ImageProcessorApp.

(** ** The history store: what the specification calls push, undo, redo *)

(** The state of a freshly constructed [ImageProcessorApp] ([__init__]). *)
Definition new_app (rs : np.RandomState) : App :=
  mkApp None None 0 1 1 0 0 1 1 0 "none" 1 true [] (-1) 10 (Text "") rs.

(** Every edit handler stores its result in [processed_image] and then
    calls [add_to_history]: this is the store's push. *)
Definition push (img : Image) (self : App) : App :=
  add_to_history (set_processed_image (Some img) self).





(** The invariant of the store: the bound is 10, at most that many entries
    are kept, and the cursor is [-1] on an empty store and a valid index
    otherwise. *)
Definition history_ok (self : App) : Prop :=
  max_history self = 10 /\
  len (history self) <= max_history self /\
  ((history self = [] /\ history_position self = -1) \/
   0 <= history_position self < len (history self)).

(** The cursor is on the newest entry. *)
Definition at_tail (self : App) : Prop :=
  history_position self = len (history self) - 1.

(** The last [n] elements of a list. *)
Definition keep_last {A} (n : nat) (l : list A) : list A :=
  skipn (length l - n) l.

(** A one-pixel RGB image of the grey level [v], for concrete runs. *)
Definition grey_pixel (v : Z) : Image := PIL.new RGB (1, 1) [v; v; v].

(** ** Per-sample formulas used to state what the adjustments compute *)

(** Multiplicative brightness: [value * factor], cut to the sample range. *)
Definition scale_sample (factor : Q) (value : Z) : Z :=
  PIL.clip8 (factor * inject_Z value).

(** Contrast about a pivot: [(value - pivot) * contrast + pivot], cut to the
    sample range.  The specification's formula is [contrast_about 128]. *)
Definition contrast_about (pivot : Z) (contrast : Q) (value : Z) : Z :=
  PIL.clip8 ((inject_Z value - inject_Z pivot) * contrast + inject_Z pivot).

(** The specification's reading of [adjustBrightnessContrast]: per channel,
    the multiplicative brightness with factor [1 + brightness/100], then
    [(value-128)*contrast+128] clamped to [0,255]. *)
Definition spec_brightness_contrast
    (image : Image) (brightness contrast : Q) : Image :=
  PIL.point
    (fun v => contrast_about 128 contrast
                (scale_sample (1 + brightness / 100) v))
    image.

(** One sample of [adjust_brightness_contrast_numpy]: the brightness is
    added, scaled by 2.55, before the contrast about 128, in floats. *)
Definition numpy_sample (brightness contrast : Q) (value : Z) : Z :=
  np.to_uint8
    (np.clip1 0 255
       (fadd
          (fmul
             (fsub (fadd (inject_Z value)
                         (fmul brightness (float_of (255 # 100))))
                   128)
             contrast)
          128)).

(** ** What the specification says of the sharpen filter *)

(** The number of sharpening passes of the specification:
    [max(1, round(intensity))] when [intensity > 1.0], one otherwise. *)
Definition spec_sharpen_passes (intensity : Q) : nat :=
  if Qltb 1 intensity then Z.to_nat (Z.max 1 (py_round intensity)) else 1%nat.

(** ** A backend for concrete runs

    [Plain.px] instantiates [Pillow] so that the embedded functions can be
    run on concrete rasters.  Its kernel filters are the convolution of
    Pillow's [ImagingFilter]: the weights divided by the scale, the offset
    and one half added, the sum cut to [0,255], the kernel flipped
    vertically, and the border of the image copied.  The other operations
    are not reproduced: the backend returns their first image argument (for
    a Gaussian blur that is exact on a one-pixel image), and no statement
    below is about their result. *)

Module Plain.

(** [ImageFilter.<NAME>.filterargs]: size, scale, offset and weights. *)
Definition kernel (f : ImageFilter) : option (Z * Z * Z * list Z) :=
  match f with
  | BLUR =>
      Some (5, 16, 0, [1; 1; 1; 1; 1;  1; 0; 0; 0; 1;  1; 0; 0; 0; 1;
                       1; 0; 0; 0; 1;  1; 1; 1; 1; 1])
  | CONTOUR => Some (3, 1, 255, [-1; -1; -1;  -1; 8; -1;  -1; -1; -1])
  | DETAIL => Some (3, 6, 0, [0; -1; 0;  -1; 10; -1;  0; -1; 0])
  | EDGE_ENHANCE => Some (3, 2, 0, [-1; -1; -1;  -1; 10; -1;  -1; -1; -1])
  | EDGE_ENHANCE_MORE => Some (3, 1, 0, [-1; -1; -1;  -1; 9; -1;  -1; -1; -1])
  | EMBOSS => Some (3, 1, 128, [-1; 0; 0;  0; 1; 0;  0; 0; 0])
  | FIND_EDGES => Some (3, 1, 0, [-1; -1; -1;  -1; 8; -1;  -1; -1; -1])
  | SHARPEN => Some (3, 16, 0, [-2; -2; -2;  -2; 32; -2;  -2; -2; -2])
  | SMOOTH => Some (3, 13, 0, [1; 1; 1;  1; 5; 1;  1; 1; 1])
  | SMOOTH_MORE =>
      Some (5, 100, 0, [1; 1; 1; 1; 1;  1; 5; 5; 5; 1;  1; 5; 44; 5; 1;
                        1; 5; 5; 5; 1;  1; 1; 1; 1; 1])
  | _ => None
  end.

Definition range (n : Z) : list Z := map Z.of_nat (seq 0 (Z.to_nat n)).

Definition convolve_plane
    (k scale offset : Z) (weights : list Z) (w h : Z) (plane : list Z)
    : list Z :=
  let half := k / 2 in
  let sample x y := nth (Z.to_nat (y * w + x)) plane 0 in
  map
    (fun idx =>
       let x := idx mod w in
       let y := idx / w in
       if (x <? half) || (w - half <=? x) || (y <? half) || (h - half <=? y)
       then sample x y
       else
         let acc :=
           fold_left
             (fun acc j =>
                fold_left
                  (fun acc i =>
                     acc + nth (Z.to_nat (j * k + i)) weights 0
                           * sample (x + i - half) (y + half - j))
                  (range k) acc)
             (range k) 0 in
         PIL.clip8 (inject_Z acc / inject_Z scale + inject_Z offset + (1 # 2))%Q)
    (range (Z.of_nat (length plane))).

Definition filter (f : ImageFilter) (img : Image) : Image :=
  match kernel f with
  | Some (k, scale, offset, weights) =>
      let '(w, h) := size img in
      mkImage (mode img) (size img)
        (map (convolve_plane k scale offset weights w h) (bands img))
  | None => img
  end.

Definition px : Pillow :=
  Build_Pillow
    filter
    (fun img => img)          (* equalize *)
    (fun img _ => img)        (* autocontrast *)
    (fun img _ => img)        (* posterize *)
    (fun img _ => img)        (* multiply *)
    (fun img _ _ => img)      (* composite *)
    (fun img _ _ => img)      (* ellipse *)
    (fun img _ => img)        (* crop *)
    (fun img _ => Ok img).    (* resize *)

End Plain.

(** A 3x3 RGB image, black but for its centre pixel of grey level [v]. *)
Definition centre_dot (v : Z) : Image :=
  let plane := [0; 0; 0;  0; v; 0;  0; 0; 0] in
  mkImage RGB (3, 3) [plane; plane; plane].

(** The application just after the one-pixel image of grey level 100 has
    been loaded: original and processed image are that image, the history
    holds it, every adjustment has its default and no filter is selected. *)
Definition loaded_app (rs : np.RandomState) : App :=
  mkApp (Some (grey_pixel 100)) (Some (grey_pixel 100))
        0 1 1 0  0 1 1 0  "none" 1 true [grey_pixel 100] 0 10 (Text "") rs.

(** [self.brightness_slider.set(v)] without its callback. *)
Definition set_brightness_slider (v : Q) (a : App) : App :=
  mkApp (original_image a) (processed_image a) v (contrast_slider a)
    (saturation_slider a) (hue_slider a) (current_brightness a)
    (current_contrast a) (current_saturation a) (current_hue a)
    (current_filter a) (filter_intensity a) (real_time_preview a) (history a)
    (history_position a) (max_history a) (status_bar a) (np_random a).

(** Decides the tests [current_filter == "..."] on a literal name. *)
Ltac eval_string_tests :=
  repeat match goal with
  | |- context [String.eqb ?a ?b] =>
      let r := eval vm_compute in (String.eqb a b) in
      change (String.eqb a b) with r
  end;
  cbv iota.


(** Replaces the powers of two with a literal exponent by their value. *)
Ltac eval_pow2 :=
  repeat match goal with
  | H : context [IEEE.pow2 ?k] |- _ =>
      let c := eval vm_compute in (IEEE.pow2 k) in
      change (IEEE.pow2 k) with c in H
  | |- context [IEEE.pow2 ?k] =>
      let c := eval vm_compute in (IEEE.pow2 k) in
      change (IEEE.pow2 k) with c
  end.
(** ** Lemmas on lists *)

Lemma len_app {A} (l1 l2 : list A) : len (l1 ++ l2) = len l1 + len l2.
Proof. unfold len. rewrite length_app. lia. Qed.

Lemma len_nonneg {A} (l : list A) : 0 <= len l.
Proof. unfold len. lia. Qed.

Lemma len_tl {A} (l : list A) : l <> [] -> len (tl l) = len l - 1.
Proof. destruct l; [congruence|]. unfold len. cbn [tl length]. lia. Qed.

Lemma keep_last_all {A} (n : nat) (l : list A) :
  (length l <= n)%nat -> keep_last n l = l.
Proof.
  intros H. unfold keep_last.
  replace (length l - n)%nat with 0%nat by lia. reflexivity.
Qed.

Lemma keep_last_length {A} (n : nat) (l : list A) :
  length (keep_last n l) = Nat.min n (length l).
Proof. unfold keep_last. rewrite length_skipn. lia. Qed.



Lemma keep_last_snoc_evict {A} (n : nat) (l : list A) (x : A) :
  (length l <= n)%nat ->
  (if len (l ++ [x]) >? Z.of_nat n then tl (l ++ [x]) else l ++ [x])
  = keep_last n (l ++ [x]).
Proof.
  intros H.
  assert (Hlen : length (l ++ [x]) = S (length l)).
  { rewrite length_app. cbn [length]. lia. }
  destruct (Z.gtb_spec (len (l ++ [x])) (Z.of_nat n)) as [Hgt | Hle];
    unfold len in *.
  - unfold keep_last.
    replace (length (l ++ [x]) - n)%nat with 1%nat by lia.
    destruct (l ++ [x]); reflexivity.
  - rewrite keep_last_all; [reflexivity | lia].
Qed.

(** ** Lemmas on the history store *)

Lemma py_slice_to_nonneg {A} (l : list A) (k : Z) :
  0 <= k -> py_slice_to l k = firstn (Z.to_nat k) l.
Proof.
  intros Hk. unfold py_slice_to.
  destruct (Z.ltb_spec k 0); [lia | reflexivity].
Qed.


(** What [add_to_history] does to a store that satisfies the invariant:
    the entries after the cursor go, the image is appended, and only the
    last ten entries stay. *)
Lemma push_spec (img : Image) (s : App) :
  history_ok s ->
  history (push img s)
  = keep_last 10
      (firstn (Z.to_nat (history_position s + 1)) (history s) ++ [img]) /\
  at_tail (push img s) /\
  max_history (push img s) = max_history s /\
  processed_image (push img s) = Some img.
Proof.
  intros (Hmax & Hlen & Hpos).
  set (h' := firstn (Z.to_nat (history_position s + 1)) (history s)).
  assert (Hh' : (length h' <= 10)%nat).
  { subst h'. rewrite length_firstn. unfold len in Hlen. lia. }
  assert (Htrunc :
    (if history_position s <? len (history s) - 1
     then py_slice_to (history s) (history_position s + 1)
     else history s) = h').
  { subst h'. destruct (Z.ltb_spec (history_position s) (len (history s) - 1)).
    - apply py_slice_to_nonneg.
      destruct Hpos as [[_ Hp] | Hp]; lia.
    - assert (Heq : history_position s + 1 = len (history s)).
      { destruct Hpos as [[Hnil Hp] | Hp]; [rewrite Hnil, Hp; reflexivity | lia]. }
      rewrite Heq. unfold len. rewrite Nat2Z.id. now rewrite firstn_all. }
  unfold push, add_to_history, at_tail.
  cbn [processed_image set_processed_image history history_position
       max_history set_history set_history_position].
  destruct (history_position s <? len (history s) - 1);
    cbn [processed_image set_processed_image history history_position
         max_history set_history set_history_position];
    rewrite Htrunc, Hmax;
    rewrite <- (keep_last_snoc_evict 10 h' img Hh');
    change (Z.of_nat 10) with 10;
    destruct (Z.gtb_spec (len (h' ++ [img])) 10);
    cbn [processed_image set_processed_image history history_position
         max_history set_history set_history_position];
    repeat split; try reflexivity; try assumption;
    rewrite len_tl; try lia; destruct h'; discriminate.
Qed.

Lemma push_ok (img : Image) (s : App) :
  history_ok s -> history_ok (push img s).
Proof.
  intros Hok. destruct (push_spec img s Hok) as (Hh & Htail & Hmax & _).
  destruct Hok as (Hten & _ & _).
  assert (Hl : 1 <= len (history (push img s)) <= 10).
  { rewrite Hh. unfold len. rewrite keep_last_length, length_app.
    cbn [length]. lia. }
  unfold history_ok. rewrite Hmax, Hten. unfold at_tail in Htail.
  repeat split; lia.
Qed.












(** ** C3 *)



(** ** C4 *)



(** ** Lemmas on floats *)

Local Open Scope Q_scope.

(** *** Powers of two *)

Lemma pow2_pos (e : Z) : 0 < IEEE.pow2 e.
Proof. apply Qpower_0_lt. reflexivity. Qed.

Lemma pow2_add (a b : Z) : IEEE.pow2 (a + b) == IEEE.pow2 a * IEEE.pow2 b.
Proof. apply Qpower_plus. discriminate. Qed.

Lemma pow2_le (a b : Z) : (a <= b)%Z -> IEEE.pow2 a <= IEEE.pow2 b.
Proof. intros H. apply Qpower_le_compat_l; [exact H | discriminate]. Qed.

Lemma pow2_lt (a b : Z) : (a < b)%Z -> IEEE.pow2 a < IEEE.pow2 b.
Proof. intros H. apply Qpower_lt_compat_l; [exact H | reflexivity]. Qed.

Lemma pow2_Z (e : Z) : (0 <= e)%Z -> IEEE.pow2 e == inject_Z (2 ^ e).
Proof. intros H. unfold IEEE.pow2. now rewrite Zpower_Qpower. Qed.

Lemma pow2_succ (e : Z) : IEEE.pow2 (e + 1) == 2 * IEEE.pow2 e.
Proof. rewrite pow2_add. change (IEEE.pow2 1) with 2. ring. Qed.

Lemma pow2_div (a b : Z) : IEEE.pow2 a / IEEE.pow2 b == IEEE.pow2 (a - b).
Proof.
  replace a with ((a - b) + b)%Z at 1 by ring. rewrite pow2_add.
  field. pose proof (pow2_pos b). lra.
Qed.

(** *** The binary exponent *)

Lemma Z_log2_bounds (n : Z) :
  (0 < n)%Z ->
  IEEE.pow2 (Z.log2 n) <= inject_Z n /\ inject_Z n < IEEE.pow2 (Z.log2 n + 1).
Proof.
  intros Hn. destruct (Z.log2_spec n Hn) as [Hlo Hhi].
  pose proof (Z.log2_nonneg n) as H0.
  rewrite !pow2_Z by lia. rewrite <- Zle_Qle, <- Zlt_Qlt.
  replace (Z.log2 n + 1)%Z with (Z.succ (Z.log2 n)) by lia. lia.
Qed.

Lemma ilog2_spec (x : Q) :
  0 < x -> IEEE.pow2 (IEEE.ilog2 x) <= x /\ x < IEEE.pow2 (IEEE.ilog2 x + 1).
Proof.
  intros Hx. unfold IEEE.ilog2.
  set (n := Qnum x). set (d := Qden x).
  assert (Hn : (0 < n)%Z).
  { unfold Qlt in Hx. cbn in Hx. subst n. lia. }
  destruct (Z_log2_bounds n Hn) as [Hn1 Hn2].
  destruct (Z_log2_bounds (Zpos d) ltac:(lia)) as [Hd1 Hd2].
  set (a := Z.log2 n) in *. set (b := Z.log2 (Zpos d)) in *.
  assert (Hxq : x == inject_Z n / inject_Z (Zpos d)).
  { destruct x as [xn xd]. apply Qmake_Qdiv. }
  assert (Hdpos : 0 < inject_Z (Zpos d)) by reflexivity.
  pose proof (pow2_pos b) as Hb. pose proof (pow2_pos a) as Ha.
  pose proof (pow2_pos (a - b)) as Hab.
  assert (Hsplit : IEEE.pow2 a == IEEE.pow2 (a - b) * IEEE.pow2 b).
  { rewrite <- pow2_add. now replace (a - b + b)%Z with a by ring. }
  assert (Hup : x < IEEE.pow2 (a - b + 1)).
  { rewrite Hxq. apply Qlt_shift_div_r; [exact Hdpos |].
    rewrite pow2_succ. rewrite pow2_succ in Hn2. nra. }
  assert (Hlow : IEEE.pow2 (a - b - 1) < x).
  { rewrite Hxq. apply Qlt_shift_div_l; [exact Hdpos |].
    assert (Hs : IEEE.pow2 (a - b) == 2 * IEEE.pow2 (a - b - 1)).
    { rewrite <- pow2_succ. now replace (a - b - 1 + 1)%Z with (a - b)%Z by ring. }
    rewrite pow2_succ in Hd2. nra. }
  destruct (Qle_bool (IEEE.pow2 (a - b)) x) eqn:E.
  - apply Qle_bool_iff in E. split; assumption.
  - assert (Hlt : ~ IEEE.pow2 (a - b) <= x).
    { intros H. apply Qle_bool_iff in H. congruence. }
    replace (a - b - 1 + 1)%Z with (a - b)%Z by ring.
    split; lra.
Qed.

Lemma ilog2_unique (x : Q) (k : Z) :
  IEEE.pow2 k <= x -> x < IEEE.pow2 (k + 1) -> IEEE.ilog2 x = k.
Proof.
  intros Hlo Hhi.
  assert (Hx : 0 < x) by (pose proof (pow2_pos k); lra).
  destruct (ilog2_spec x Hx) as [Slo Shi].
  destruct (Z.lt_trichotomy (IEEE.ilog2 x) k) as [Hlt | [Heq | Hgt]];
    [| exact Heq |].
  - pose proof (pow2_le (IEEE.ilog2 x + 1) k ltac:(lia)). lra.
  - pose proof (pow2_le (k + 1) (IEEE.ilog2 x) ltac:(lia)). lra.
Qed.

Lemma ilog2_comp (x y : Q) : 0 < x -> x == y -> IEEE.ilog2 x = IEEE.ilog2 y.
Proof.
  intros Hx Hxy. destruct (ilog2_spec x Hx) as [Slo Shi].
  symmetry. apply ilog2_unique; rewrite <- Hxy; assumption.
Qed.

Lemma ilog2_le (x y : Q) : 0 < x -> x <= y -> (IEEE.ilog2 x <= IEEE.ilog2 y)%Z.
Proof.
  intros Hx Hxy.
  destruct (ilog2_spec x Hx) as [Xlo Xhi].
  destruct (ilog2_spec y ltac:(lra)) as [Ylo Yhi].
  destruct (Z.le_gt_cases (IEEE.ilog2 x) (IEEE.ilog2 y)) as [H | H];
    [exact H |].
  pose proof (pow2_le (IEEE.ilog2 y + 1) (IEEE.ilog2 x) ltac:(lia)). lra.
Qed.

(** *** Rounding to the nearest integer, ties to even *)

Lemma py_round_comp (x y : Q) : x == y -> py_round x = py_round y.
Proof.
  intros H. unfold py_round. rewrite (Qfloor_comp x y H).
  assert (Hr : x - inject_Z (Qfloor y) == y - inject_Z (Qfloor y))
    by now rewrite H.
  rewrite (Qleb_comp _ _ Hr _ _ (Qeq_refl (1 # 2))).
  rewrite (Qeqb_comp _ _ Hr _ _ (Qeq_refl (1 # 2))).
  reflexivity.
Qed.

Lemma py_round_cases (x : Q) :
  let f := Qfloor x in
  (py_round x = f /\ x - inject_Z f <= 1 # 2) \/
  (py_round x = (f + 1)%Z /\ 1 # 2 <= x - inject_Z f).
Proof.
  intros f. unfold py_round. fold f.
  destruct (Qle_bool (x - inject_Z f) (1 # 2)) eqn:E1.
  - apply Qle_bool_iff in E1.
    destruct (Qeq_bool (x - inject_Z f) (1 # 2)) eqn:E2.
    + apply Qeq_bool_iff in E2.
      destruct (Z.even f); [left | right]; split; try reflexivity; lra.
    + left. split; [reflexivity | exact E1].
  - right. split; [reflexivity |].
    assert (H : ~ x - inject_Z f <= 1 # 2).
    { intros H. apply Qle_bool_iff in H. congruence. }
    lra.
Qed.

Lemma Qfloor_bounds (x : Q) :
  inject_Z (Qfloor x) <= x /\ x < inject_Z (Qfloor x) + 1.
Proof.
  split; [apply Qfloor_le |].
  pose proof (Qlt_floor x) as H. rewrite inject_Z_plus in H. exact H.
Qed.

Lemma py_round_bounds (x : Q) :
  x - (1 # 2) <= inject_Z (py_round x) /\
  inject_Z (py_round x) <= x + (1 # 2).
Proof.
  destruct (Qfloor_bounds x) as [Hlo Hhi].
  destruct (py_round_cases x) as [[-> Hr] | [-> Hr]].
  - split; lra.
  - rewrite inject_Z_plus. change (inject_Z 1) with 1. split; lra.
Qed.

Lemma py_round_Z (n : Z) : py_round (inject_Z n) = n.
Proof.
  unfold py_round. rewrite Qfloor_Z.
  assert (Hr : inject_Z n - inject_Z n == 0) by ring.
  rewrite (Qleb_comp _ _ Hr _ _ (Qeq_refl (1 # 2))).
  rewrite (Qeqb_comp _ _ Hr _ _ (Qeq_refl (1 # 2))).
  reflexivity.
Qed.

Lemma py_round_le (x y : Q) : x <= y -> (py_round x <= py_round y)%Z.
Proof.
  intros Hxy.
  pose proof (Qfloor_resp_le x y Hxy) as Hf.
  destruct (Qfloor_bounds x) as [Xlo Xhi].
  destruct (Qfloor_bounds y) as [Ylo Yhi].
  destruct (Z.eq_dec (Qfloor x) (Qfloor y)) as [Heq | Hne].
  - unfold py_round. rewrite <- Heq.
    set (f := Qfloor x) in *.
    destruct (Qle_bool (y - inject_Z f) (1 # 2)) eqn:Ey.
    + apply Qle_bool_iff in Ey.
      assert (Ex : Qle_bool (x - inject_Z f) (1 # 2) = true)
        by (apply Qle_bool_iff; lra).
      rewrite Ex.
      destruct (Qeq_bool (x - inject_Z f) (1 # 2)) eqn:Ex2.
      * apply Qeq_bool_iff in Ex2.
        assert (Ey2 : Qeq_bool (y - inject_Z f) (1 # 2) = true)
          by (apply Qeq_bool_iff; lra).
        rewrite Ey2. lia.
      * destruct (Qeq_bool (y - inject_Z f) (1 # 2));
          destruct (Z.even f); lia.
    + destruct (Qle_bool (x - inject_Z f) (1 # 2)); [| lia].
      destruct (Qeq_bool (x - inject_Z f) (1 # 2));
        destruct (Z.even f); lia.
  - destruct (py_round_cases x) as [[-> _] | [-> _]];
      destruct (py_round_cases y) as [[-> _] | [-> _]]; lia.
Qed.

Lemma py_round_nonneg (x : Q) : 0 <= x -> (0 <= py_round x)%Z.
Proof.
  intros H. change 0%Z with (py_round 0). now apply py_round_le.
Qed.

(** *** Rounding to a binary format *)

Section Format.

Variables prec emin : Z.
Hypothesis prec_pos : (1 <= prec)%Z.

Lemma grid_le (e k : Z) (x : Q) :
  (e <= k)%Z -> x <= IEEE.pow2 k ->
  inject_Z (py_round (x / IEEE.pow2 e)) * IEEE.pow2 e <= IEEE.pow2 k.
Proof.
  intros Hek Hx. pose proof (pow2_pos e) as He.
  assert (Hq : IEEE.pow2 k == inject_Z (2 ^ (k - e)) * IEEE.pow2 e).
  { rewrite <- pow2_Z by lia. rewrite <- pow2_add.
    now replace (k - e + e)%Z with k by ring. }
  rewrite Hq. apply Qmult_le_compat_r; [| lra].
  rewrite <- Zle_Qle. rewrite <- (py_round_Z (2 ^ (k - e))).
  apply py_round_le. apply Qle_shift_div_r; [exact He |]. now rewrite <- Hq.
Qed.

Lemma grid_ge (e k : Z) (x : Q) :
  (e <= k)%Z -> IEEE.pow2 k <= x ->
  IEEE.pow2 k <= inject_Z (py_round (x / IEEE.pow2 e)) * IEEE.pow2 e.
Proof.
  intros Hek Hx. pose proof (pow2_pos e) as He.
  assert (Hq : IEEE.pow2 k == inject_Z (2 ^ (k - e)) * IEEE.pow2 e).
  { rewrite <- pow2_Z by lia. rewrite <- pow2_add.
    now replace (k - e + e)%Z with k by ring. }
  rewrite Hq at 1. apply Qmult_le_compat_r; [| lra].
  rewrite <- Zle_Qle. rewrite <- (py_round_Z (2 ^ (k - e))) at 1.
  apply py_round_le. apply Qle_shift_div_l; [exact He |]. now rewrite <- Hq.
Qed.

Lemma round_pos_zero (x : Q) : x == 0 -> IEEE.round_pos prec emin x == 0.
Proof.
  intros Hx. unfold IEEE.round_pos.
  generalize (Z.max (IEEE.ilog2 x - prec + 1) emin). intros e.
  rewrite (py_round_comp _ 0); [change (py_round 0) with 0%Z; ring |].
  rewrite Hx. unfold Qdiv. ring.
Qed.

Lemma round_pos_comp (x y : Q) :
  0 <= x -> x == y -> IEEE.round_pos prec emin x == IEEE.round_pos prec emin y.
Proof.
  intros Hx Hxy. destruct (Qeq_dec x 0) as [Hz | Hnz].
  - rewrite (round_pos_zero x Hz), (round_pos_zero y); [reflexivity |].
    now rewrite <- Hxy.
  - unfold IEEE.round_pos.
    rewrite (ilog2_comp x y) by (assumption || lra).
    rewrite (py_round_comp (x / _) (y / IEEE.pow2
      (Z.max (IEEE.ilog2 y - prec + 1) emin))) by now rewrite Hxy.
    reflexivity.
Qed.

Lemma round_pos_nonneg (x : Q) : 0 <= x -> 0 <= IEEE.round_pos prec emin x.
Proof.
  intros Hx. unfold IEEE.round_pos.
  pose proof (pow2_pos (Z.max (IEEE.ilog2 x - prec + 1) emin)) as He.
  apply Qmult_le_0_compat; [| lra].
  change 0 with (inject_Z 0). rewrite <- Zle_Qle. apply py_round_nonneg.
  apply Qle_shift_div_l; [exact He | lra].
Qed.

Lemma round_pos_le (x y : Q) :
  0 <= x -> x <= y -> IEEE.round_pos prec emin x <= IEEE.round_pos prec emin y.
Proof.
  intros Hx Hxy. destruct (Qeq_dec x 0) as [Hz | Hnz].
  - rewrite (round_pos_zero x Hz). apply round_pos_nonneg. lra.
  - assert (Hx' : 0 < x) by lra.
    pose proof (ilog2_le x y Hx' Hxy) as Hlog.
    destruct (ilog2_spec x Hx') as [Xlo Xhi].
    destruct (ilog2_spec y ltac:(lra)) as [Ylo Yhi].
    unfold IEEE.round_pos.
    set (ex := Z.max (IEEE.ilog2 x - prec + 1) emin).
    set (ey := Z.max (IEEE.ilog2 y - prec + 1) emin).
    destruct (Z.eq_dec ex ey) as [Heq | Hne].
    + rewrite <- Heq. pose proof (pow2_pos ex) as He.
      apply Qmult_le_compat_r; [| lra].
      rewrite <- Zle_Qle. apply py_round_le.
      apply Qmult_le_compat_r; [exact Hxy |].
      apply Qinv_le_0_compat. lra.
    + assert (Hlt : (IEEE.ilog2 x < IEEE.ilog2 y)%Z) by lia.
      apply Qle_trans with (IEEE.pow2 (IEEE.ilog2 y)).
      * apply grid_le; [lia |].
        pose proof (pow2_le (IEEE.ilog2 x + 1) (IEEE.ilog2 y) ltac:(lia)).
        lra.
      * apply grid_ge; [lia | exact Ylo].
Qed.

Lemma round_pos_exact (x : Q) (m e : Z) :
  (0 < m < 2 ^ prec)%Z -> (emin <= e)%Z ->
  x == inject_Z m * IEEE.pow2 e ->
  IEEE.round_pos prec emin x == x.
Proof.
  intros Hm He Hx.
  destruct (Z_log2_bounds m ltac:(lia)) as [Mlo Mhi].
  pose proof (pow2_pos e) as Hpe.
  assert (Hlog : IEEE.ilog2 x = (Z.log2 m + e)%Z).
  { apply ilog2_unique; rewrite Hx.
    - rewrite pow2_add. apply Qmult_le_compat_r; lra.
    - replace (Z.log2 m + e + 1)%Z with (Z.log2 m + 1 + e)%Z by ring.
      rewrite pow2_add. apply Qmult_lt_compat_r; lra. }
  assert (Hlm : (Z.log2 m < prec)%Z).
  { apply Z.log2_lt_pow2; lia. }
  unfold IEEE.round_pos. rewrite Hlog.
  set (u := Z.max (Z.log2 m + e - prec + 1) emin).
  assert (Hu : (u <= e)%Z) by lia.
  pose proof (pow2_pos u) as Hpu.
  assert (Hsplit : IEEE.pow2 e == inject_Z (2 ^ (e - u)) * IEEE.pow2 u).
  { rewrite <- pow2_Z by lia. rewrite <- pow2_add.
    now replace (e - u + u)%Z with e by ring. }
  rewrite (py_round_comp _ (inject_Z (m * 2 ^ (e - u)))).
  - rewrite py_round_Z, Hx, Hsplit, inject_Z_mult. ring.
  - rewrite Hx, Hsplit, inject_Z_mult. field. lra.
Qed.

Lemma round_pos_error (x : Q) :
  0 < x ->
  let u := Z.max (IEEE.ilog2 x - prec + 1) emin in
  x - (1 # 2) * IEEE.pow2 u <= IEEE.round_pos prec emin x /\
  IEEE.round_pos prec emin x <= x + (1 # 2) * IEEE.pow2 u.
Proof.
  intros Hx u. unfold IEEE.round_pos. fold u.
  pose proof (pow2_pos u) as Hpu.
  destruct (py_round_bounds (x / IEEE.pow2 u)) as [Hlo Hhi].
  assert (Hxu : x == x / IEEE.pow2 u * IEEE.pow2 u) by (field; lra).
  split.
  - rewrite Hxu at 1.
    setoid_replace (x / IEEE.pow2 u * IEEE.pow2 u - (1 # 2) * IEEE.pow2 u)
      with ((x / IEEE.pow2 u - (1 # 2)) * IEEE.pow2 u) by ring.
    apply Qmult_le_compat_r; lra.
  - rewrite Hxu at 2.
    setoid_replace (x / IEEE.pow2 u * IEEE.pow2 u + (1 # 2) * IEEE.pow2 u)
      with ((x / IEEE.pow2 u + (1 # 2)) * IEEE.pow2 u) by ring.
    apply Qmult_le_compat_r; lra.
Qed.

End Format.

Section Round.

Variables prec emin : Z.
Hypothesis prec_pos : (1 <= prec)%Z.

Lemma round_comp (x y : Q) :
  x == y -> IEEE.round prec emin x = IEEE.round prec emin y.
Proof.
  intros H. unfold IEEE.round. now rewrite (Qred_complete x y H).
Qed.

Lemma round_of_nonneg (x : Q) :
  0 <= x -> IEEE.round prec emin x == IEEE.round_pos prec emin x.
Proof.
  intros Hx. unfold IEEE.round. rewrite Qred_correct.
  assert (E : Qle_bool 0 (Qred x) = true).
  { apply Qle_bool_iff. now rewrite Qred_correct. }
  rewrite E. apply round_pos_comp.
  - now rewrite Qred_correct.
  - apply Qred_correct.
Qed.

Lemma round_of_neg (x : Q) :
  x < 0 -> IEEE.round prec emin x == - IEEE.round_pos prec emin (- x).
Proof.
  intros Hx. unfold IEEE.round. rewrite Qred_correct.
  assert (E : Qle_bool 0 (Qred x) = false).
  { apply not_true_iff_false. intros H. apply Qle_bool_iff in H.
    rewrite Qred_correct in H. lra. }
  rewrite E. apply Qopp_comp. apply round_pos_comp.
  - rewrite Qred_correct. lra.
  - now rewrite Qred_correct.
Qed.

Lemma round_zero (x : Q) : x == 0 -> IEEE.round prec emin x == 0.
Proof.
  intros Hx. rewrite round_of_nonneg by lra. now apply round_pos_zero.
Qed.

Lemma round_opp (x : Q) :
  IEEE.round prec emin (- x) == - IEEE.round prec emin x.
Proof.
  destruct (Qlt_le_dec 0 x) as [Hpos | Hle].
  - rewrite (round_of_neg (- x)) by lra.
    rewrite (round_of_nonneg x) by lra.
    apply Qopp_comp. apply round_pos_comp; [lra | ring].
  - destruct (Qeq_dec x 0) as [Hz | Hnz].
    + rewrite (round_zero x Hz), (round_zero (- x)); [reflexivity | lra].
    + rewrite (round_of_nonneg (- x)) by lra.
      rewrite (round_of_neg x) by lra. ring.
Qed.

Lemma round_nonneg (x : Q) : 0 <= x -> 0 <= IEEE.round prec emin x.
Proof.
  intros Hx. rewrite round_of_nonneg by assumption.
  now apply round_pos_nonneg.
Qed.

Lemma round_nonpos (x : Q) : x <= 0 -> IEEE.round prec emin x <= 0.
Proof.
  intros Hx. destruct (Qeq_dec x 0) as [Hz | Hnz].
  - rewrite (round_zero x Hz). lra.
  - rewrite round_of_neg by lra.
    pose proof (round_pos_nonneg prec emin (- x) ltac:(lra)). lra.
Qed.

(** Rounding is monotone. *)
Lemma round_le (x y : Q) :
  x <= y -> IEEE.round prec emin x <= IEEE.round prec emin y.
Proof.
  intros Hxy. destruct (Qlt_le_dec x 0) as [Hx | Hx].
  - destruct (Qlt_le_dec y 0) as [Hy | Hy].
    + rewrite (round_of_neg x), (round_of_neg y) by assumption.
      apply Qopp_le_compat. apply round_pos_le; [assumption | lra | lra].
    + pose proof (round_nonpos x ltac:(lra)).
      pose proof (round_nonneg y Hy). lra.
  - rewrite (round_of_nonneg x), (round_of_nonneg y) by lra.
    now apply round_pos_le.
Qed.

(** A number [m * 2^e] with [|m| < 2^prec] and [emin <= e] is a float. *)
Lemma round_exact (x : Q) (m e : Z) :
  (Z.abs m < 2 ^ prec)%Z -> (emin <= e)%Z ->
  x == inject_Z m * IEEE.pow2 e ->
  IEEE.round prec emin x == x.
Proof.
  intros Hm He Hx. pose proof (pow2_pos e) as Hpe.
  destruct (Z.lt_trichotomy m 0) as [Hneg | [Hz | Hpos]].
  - assert (Hxneg : x < 0).
    { rewrite Hx. assert (inject_Z m < 0).
      { change 0 with (inject_Z 0). rewrite <- Zlt_Qlt. exact Hneg. }
      nra. }
    rewrite round_of_neg by assumption.
    assert (E : IEEE.round_pos prec emin (- x) == - x).
    { apply (round_pos_exact prec emin) with (m := (- m)%Z) (e := e);
        try lia.
      rewrite Hx, inject_Z_opp. ring. }
    rewrite E. ring.
  - assert (Hx0 : x == 0).
    { rewrite Hx, Hz. change (inject_Z 0) with 0. ring. }
    rewrite (round_zero x Hx0). now rewrite Hx0.
  - assert (Hxpos : 0 <= x).
    { rewrite Hx. assert (0 < inject_Z m).
      { change 0 with (inject_Z 0). rewrite <- Zlt_Qlt. exact Hpos. }
      nra. }
    rewrite round_of_nonneg by assumption.
    apply (round_pos_exact prec emin) with (m := m) (e := e);
      try lia; exact Hx.
Qed.

Lemma round_Z (n : Z) :
  (Z.abs n < 2 ^ prec)%Z -> (emin <= 0)%Z ->
  IEEE.round prec emin (inject_Z n) == inject_Z n.
Proof.
  intros Hn He. apply (round_exact _ n 0); [assumption | assumption |].
  change (IEEE.pow2 0) with 1. ring.
Qed.

(** The error of rounding is at most half a unit in the last place. *)
Lemma round_error (x : Q) (k : Z) :
  Qabs x <= IEEE.pow2 k -> (emin <= k - prec + 1)%Z ->
  x - IEEE.pow2 (k - prec) <= IEEE.round prec emin x /\
  IEEE.round prec emin x <= x + IEEE.pow2 (k - prec).
Proof.
  intros Hk He.
  assert (Hhalf : forall u, (u <= k - prec + 1)%Z ->
                            (1 # 2) * IEEE.pow2 u <= IEEE.pow2 (k - prec)).
  { intros u Hu. pose proof (pow2_le u (k - prec + 1) Hu) as H.
    pose proof (pow2_succ (k - prec)) as Hs. lra. }
  assert (Hpos : forall y, 0 < y -> y <= IEEE.pow2 k ->
            y - IEEE.pow2 (k - prec) <= IEEE.round_pos prec emin y /\
            IEEE.round_pos prec emin y <= y + IEEE.pow2 (k - prec)).
  { intros y Hy Hyk.
    destruct (round_pos_error prec emin y Hy) as [Hlo Hhi].
    assert (Hlog : (IEEE.ilog2 y <= k)%Z).
    { destruct (ilog2_spec y Hy) as [Ylo _].
      destruct (Z.le_gt_cases (IEEE.ilog2 y) k) as [H | H]; [exact H |].
      pose proof (pow2_lt k (IEEE.ilog2 y) ltac:(lia)). lra. }
    pose proof (Hhalf (Z.max (IEEE.ilog2 y - prec + 1) emin) ltac:(lia)).
    split; lra. }
  destruct (Qlt_le_dec x 0) as [Hx | Hx].
  - rewrite round_of_neg by assumption.
    rewrite Qabs_neg in Hk by lra.
    destruct (Hpos (- x) ltac:(lra) Hk). split; lra.
  - destruct (Qeq_dec x 0) as [Hz | Hnz].
    + rewrite (round_zero x Hz). pose proof (pow2_pos (k - prec)).
      split; lra.
    + rewrite round_of_nonneg by assumption.
      rewrite Qabs_pos in Hk by assumption.
      apply Hpos; [lra | exact Hk].
Qed.

(** In the normal range the error is at most [2^-prec] times the number. *)
Lemma round_rel_error (x : Q) :
  IEEE.pow2 (emin + prec - 1) <= x ->
  x * (1 - IEEE.pow2 (- prec)) <= IEEE.round prec emin x /\
  IEEE.round prec emin x <= x * (1 + IEEE.pow2 (- prec)).
Proof.
  intros Hx. pose proof (pow2_pos (emin + prec - 1)) as Hp.
  assert (Hx0 : 0 < x) by lra.
  rewrite round_of_nonneg by lra.
  destruct (round_pos_error prec emin x Hx0) as [Hlo Hhi]. cbv zeta in *.
  destruct (ilog2_spec x Hx0) as [Xlo Xhi].
  assert (Hlog : (emin + prec - 1 <= IEEE.ilog2 x)%Z).
  { destruct (Z.le_gt_cases (emin + prec - 1) (IEEE.ilog2 x)) as [H | H];
      [exact H |].
    pose proof (pow2_le (IEEE.ilog2 x + 1) (emin + prec - 1) ltac:(lia)).
    lra. }
  replace (Z.max (IEEE.ilog2 x - prec + 1) emin)
    with (IEEE.ilog2 x - prec + 1)%Z in * by lia.
  assert (Hu : (1 # 2) * IEEE.pow2 (IEEE.ilog2 x - prec + 1)
               == IEEE.pow2 (IEEE.ilog2 x) * IEEE.pow2 (- prec)).
  { rewrite <- pow2_add.
    replace (IEEE.ilog2 x - prec + 1)%Z with (IEEE.ilog2 x + - prec + 1)%Z
      by ring.
    rewrite pow2_succ. ring. }
  rewrite Hu in Hlo, Hhi.
  pose proof (pow2_pos (- prec)) as Hpp.
  assert (Hm : IEEE.pow2 (IEEE.ilog2 x) * IEEE.pow2 (- prec)
               <= x * IEEE.pow2 (- prec)).
  { apply Qmult_le_compat_r; lra. }
  split; lra.
Qed.

End Round.

Local Close Scope Q_scope.

(** ** Lemmas on the two float formats *)

Local Open Scope Q_scope.

Lemma binary32_comp (x y : Q) : x == y -> IEEE.binary32 x = IEEE.binary32 y.
Proof. apply round_comp. Qed.

Lemma binary64_comp (x y : Q) : x == y -> IEEE.binary64 x = IEEE.binary64 y.
Proof. apply round_comp. Qed.

#[global] Instance binary32_proper : Proper (Qeq ==> Qeq) IEEE.binary32.
Proof. intros x y H. now rewrite (binary32_comp x y H). Qed.

#[global] Instance binary64_proper : Proper (Qeq ==> Qeq) IEEE.binary64.
Proof. intros x y H. now rewrite (binary64_comp x y H). Qed.

#[global] Instance float_of_proper : Proper (Qeq ==> Qeq) float_of.
Proof. intros x y H. unfold float_of. now rewrite H. Qed.

#[global] Instance fadd_proper : Proper (Qeq ==> Qeq ==> Qeq) fadd.
Proof. intros x y H x' y' H'. unfold fadd. now rewrite H, H'. Qed.

#[global] Instance fsub_proper : Proper (Qeq ==> Qeq ==> Qeq) fsub.
Proof. intros x y H x' y' H'. unfold fsub. now rewrite H, H'. Qed.

#[global] Instance fmul_proper : Proper (Qeq ==> Qeq ==> Qeq) fmul.
Proof. intros x y H x' y' H'. unfold fmul. now rewrite H, H'. Qed.

#[global] Instance fdiv_proper : Proper (Qeq ==> Qeq ==> Qeq) fdiv.
Proof. intros x y H x' y' H'. unfold fdiv. now rewrite H, H'. Qed.

Lemma binary32_le (x y : Q) : x <= y -> IEEE.binary32 x <= IEEE.binary32 y.
Proof. apply round_le. lia. Qed.

Lemma binary64_le (x y : Q) : x <= y -> IEEE.binary64 x <= IEEE.binary64 y.
Proof. apply round_le. lia. Qed.

Lemma binary32_Z (n : Z) :
  (Z.abs n < 2 ^ 24)%Z -> IEEE.binary32 (inject_Z n) == inject_Z n.
Proof. intros H. apply round_Z; try lia; exact H. Qed.

Lemma binary64_Z (n : Z) :
  (Z.abs n < 2 ^ 53)%Z -> IEEE.binary64 (inject_Z n) == inject_Z n.
Proof. intros H. apply round_Z; try lia; exact H. Qed.

(** A float between two integers is rounded to a float between them. *)
Lemma binary32_between (x : Q) (lo hi : Z) :
  (Z.abs lo < 2 ^ 24)%Z -> (Z.abs hi < 2 ^ 24)%Z ->
  inject_Z lo <= x -> x <= inject_Z hi ->
  inject_Z lo <= IEEE.binary32 x /\ IEEE.binary32 x <= inject_Z hi.
Proof.
  intros Hlo Hhi H1 H2. split.
  - rewrite <- (binary32_Z lo Hlo). now apply binary32_le.
  - rewrite <- (binary32_Z hi Hhi). now apply binary32_le.
Qed.

Lemma binary64_between (x : Q) (lo hi : Z) :
  (Z.abs lo < 2 ^ 53)%Z -> (Z.abs hi < 2 ^ 53)%Z ->
  inject_Z lo <= x -> x <= inject_Z hi ->
  inject_Z lo <= IEEE.binary64 x /\ IEEE.binary64 x <= inject_Z hi.
Proof.
  intros Hlo Hhi H1 H2. split.
  - rewrite <- (binary64_Z lo Hlo). now apply binary64_le.
  - rewrite <- (binary64_Z hi Hhi). now apply binary64_le.
Qed.

(** ** Lemmas on samples *)

Lemma clip8_comp (v w : Q) : v == w -> PIL.clip8 v = PIL.clip8 w.
Proof.
  intros H. unfold PIL.clip8.
  rewrite (Qleb_comp v w H 0 0 (Qeq_refl 0)).
  rewrite (Qleb_comp 255 255 (Qeq_refl 255) v w H).
  now rewrite (Qfloor_comp v w H).
Qed.

Lemma clip8_range (v : Q) : sample_ok (PIL.clip8 v).
Proof.
  unfold PIL.clip8, sample_ok.
  destruct (Qle_bool v 0) eqn:E0; [lia |].
  destruct (Qle_bool 255 v) eqn:E1; [lia |].
  assert (H0 : ~ v <= 0) by (rewrite <- Qle_bool_iff; congruence).
  assert (H1 : ~ 255 <= v) by (rewrite <- Qle_bool_iff; congruence).
  split.
  - change 0%Z with (Qfloor 0). apply Qfloor_resp_le. lra.
  - change 255%Z with (Qfloor 255). apply Qfloor_resp_le. lra.
Qed.

Lemma clip8_sample (v : Z) : sample_ok v -> PIL.clip8 (inject_Z v) = v.
Proof.
  unfold sample_ok, PIL.clip8. intros [Hlo Hhi].
  destruct (Qle_bool (inject_Z v) 0) eqn:E0.
  - apply Qle_bool_iff in E0. change 0 with (inject_Z 0) in E0.
    rewrite <- Zle_Qle in E0. lia.
  - destruct (Qle_bool 255 (inject_Z v)) eqn:E1.
    + apply Qle_bool_iff in E1. change 255 with (inject_Z 255) in E1.
      rewrite <- Zle_Qle in E1. lia.
    + apply Qfloor_Z.
Qed.

Lemma inject_sample (v : Z) :
  sample_ok v -> 0 <= inject_Z v /\ inject_Z v <= 255.
Proof.
  intros [Hlo Hhi]. split.
  - change 0 with (inject_Z 0). now rewrite <- Zle_Qle.
  - change 255 with (inject_Z 255). now rewrite <- Zle_Qle.
Qed.

(** On a value of the sample range the plain cast and the clipping cast of
    [ImagingBlend] agree. *)
Lemma cast_clip8 (v : Q) :
  0 <= v -> v <= 255 -> (Qfloor v mod 256)%Z = PIL.clip8 v.
Proof.
  intros Hv0 Hv255.
  assert (Hf : (0 <= Qfloor v <= 255)%Z).
  { split.
    - change 0%Z with (Qfloor 0). now apply Qfloor_resp_le.
    - change 255%Z with (Qfloor 255). now apply Qfloor_resp_le. }
  rewrite Z.mod_small by lia.
  unfold PIL.clip8.
  destruct (Qle_bool v 0) eqn:E0.
  - apply Qle_bool_iff in E0.
    assert (Hz : v == 0) by lra. rewrite (Qfloor_comp _ _ Hz). reflexivity.
  - destruct (Qle_bool 255 v) eqn:E1; [| reflexivity].
    apply Qle_bool_iff in E1.
    assert (Hz : v == 255) by lra. rewrite (Qfloor_comp _ _ Hz). reflexivity.
Qed.

(** The single-precision value of [in1 + alpha * (in2 - in1)]. *)
Lemma blend_temp_range (alpha : Q) (in1 in2 : Z) :
  sample_ok in1 -> sample_ok in2 -> 0 <= alpha -> alpha <= 1 ->
  0 <= IEEE.binary32
         (inject_Z in1
          + IEEE.binary32 (alpha * (inject_Z in2 - inject_Z in1))) /\
  IEEE.binary32
    (inject_Z in1 + IEEE.binary32 (alpha * (inject_Z in2 - inject_Z in1)))
  <= 255.
Proof.
  intros H1 H2 Ha0 Ha1.
  pose proof (inject_sample in1 H1) as [Q1l Q1h].
  pose proof (inject_sample in2 H2) as [Q2l Q2h].
  unfold sample_ok in H1, H2.
  assert (Hd : inject_Z in2 - inject_Z in1 == inject_Z (in2 - in1)).
  { unfold Z.sub. rewrite inject_Z_plus, inject_Z_opp. ring. }
  set (d := inject_Z in2 - inject_Z in1) in *.
  set (t := IEEE.binary32 (alpha * d)).
  destruct (Z.le_gt_cases in1 in2) as [Hle | Hgt].
  - assert (Hd0 : 0 <= d).
    { rewrite Hd. change 0 with (inject_Z 0). rewrite <- Zle_Qle. lia. }
    destruct (binary32_between (alpha * d) 0 (in2 - in1))
      as [T0 T1]; try lia.
    { change (inject_Z 0) with 0. nra. }
    { rewrite <- Hd. nra. }
    fold t in T0, T1. change (inject_Z 0) with 0 in T0. rewrite <- Hd in T1.
    destruct (binary32_between (inject_Z in1 + t) in1 in2) as [S0 S1];
      try lia.
    { lra. }
    { unfold d in T1. lra. }
    split; lra.
  - assert (Hd0 : d <= 0).
    { rewrite Hd. change 0 with (inject_Z 0). rewrite <- Zle_Qle. lia. }
    destruct (binary32_between (alpha * d) (in2 - in1) 0)
      as [T0 T1]; try lia.
    { rewrite <- Hd. nra. }
    { change (inject_Z 0) with 0. nra. }
    fold t in T0, T1. change (inject_Z 0) with 0 in T1. rewrite <- Hd in T0.
    destruct (binary32_between (inject_Z in1 + t) in2 in1) as [S0 S1];
      try lia.
    { unfold d in T0. lra. }
    { lra. }
    split; lra.
Qed.

(** On valid samples both loops of [ImagingBlend] give the clipped
    single-precision value. *)
Lemma blend_sample_clip8 (alpha : Q) (in1 in2 : Z) :
  sample_ok in1 -> sample_ok in2 ->
  PIL.blend_sample alpha in1 in2
  = PIL.clip8
      (IEEE.binary32
         (inject_Z in1
          + IEEE.binary32 (alpha * (inject_Z in2 - inject_Z in1)))).
Proof.
  intros H1 H2. unfold PIL.blend_sample.
  destruct (Qle_bool 0 alpha && Qle_bool alpha 1) eqn:Ea; [| reflexivity].
  apply andb_true_iff in Ea. destruct Ea as [Ea0 Ea1].
  apply Qle_bool_iff in Ea0, Ea1.
  destruct (blend_temp_range alpha in1 in2 H1 H2 Ea0 Ea1) as [T0 T1].
  now apply cast_clip8.
Qed.

Lemma blend_sample_range (alpha : Q) (in1 in2 : Z) :
  sample_ok (PIL.blend_sample alpha in1 in2).
Proof.
  unfold PIL.blend_sample.
  destruct (Qle_bool 0 alpha && Qle_bool alpha 1).
  - unfold sample_ok.
    match goal with
    | |- (0 <= ?a mod 256 <= 255)%Z =>
        pose proof (Z.mod_pos_bound a 256); lia
    end.
  - apply clip8_range.
Qed.

Lemma blend_sample_one (alpha : Q) (in1 in2 : Z) :
  alpha == 1 -> sample_ok in1 -> sample_ok in2 ->
  PIL.blend_sample alpha in1 in2 = in2.
Proof.
  intros Ha H1 H2. rewrite blend_sample_clip8 by assumption.
  transitivity (PIL.clip8 (inject_Z in2)); [| now apply clip8_sample].
  apply clip8_comp.
  unfold sample_ok in H1, H2.
  assert (Hd : alpha * (inject_Z in2 - inject_Z in1) == inject_Z (in2 - in1)).
  { rewrite Ha. unfold Z.sub. rewrite inject_Z_plus, inject_Z_opp. ring. }
  rewrite Hd, binary32_Z by lia.
  assert (Hs : inject_Z in1 + inject_Z (in2 - in1) == inject_Z in2).
  { unfold Z.sub. rewrite inject_Z_plus, inject_Z_opp. ring. }
  rewrite Hs. apply binary32_Z. lia.
Qed.

Lemma blend_sample_zero (alpha : Q) (in1 in2 : Z) :
  alpha == 0 -> sample_ok in1 -> sample_ok in2 ->
  PIL.blend_sample alpha in1 in2 = in1.
Proof.
  intros Ha H1 H2. rewrite blend_sample_clip8 by assumption.
  transitivity (PIL.clip8 (inject_Z in1)); [| now apply clip8_sample].
  apply clip8_comp.
  unfold sample_ok in H1, H2.
  assert (Hd : alpha * (inject_Z in2 - inject_Z in1) == inject_Z 0).
  { rewrite Ha. change (inject_Z 0) with 0. ring. }
  rewrite Hd, binary32_Z by lia.
  assert (Hs : inject_Z in1 + inject_Z 0 == inject_Z in1).
  { change (inject_Z 0) with 0. ring. }
  rewrite Hs. apply binary32_Z. lia.
Qed.

Lemma py_int_nonneg (q : Q) : 0 <= q -> py_int q = Qfloor q.
Proof.
  intros Hq. unfold py_int, Qfloor. destruct q as [n d]. cbn [Qnum Qden].
  apply Z.quot_div_nonneg; [| lia].
  unfold Qle in Hq. cbn in Hq. lia.
Qed.

Lemma py_int_of_Z (q : Q) (n : Z) :
  (0 <= n)%Z -> q == inject_Z n -> py_int q = n.
Proof.
  intros Hn Hq.
  assert (H0 : 0 <= q).
  { rewrite Hq. change 0 with (inject_Z 0). now rewrite <- Zle_Qle. }
  rewrite py_int_nonneg by assumption.
  now rewrite (Qfloor_comp _ _ Hq), Qfloor_Z.
Qed.

(** The level of the grey image of the contrast enhancer is a sample. *)
Lemma rounded_mean_range (total count : Z) :
  (0 <= count)%Z -> (0 <= total <= 255 * count)%Z ->
  sample_ok (py_int (fadd (fdiv (inject_Z total) (inject_Z count)) (1 # 2))).
Proof.
  intros Hc Ht.
  assert (Hm : 0 <= inject_Z total / inject_Z count /\
               inject_Z total / inject_Z count <= 255).
  { destruct (Z.eq_dec count 0) as [-> | Hne].
    - assert (Hz : inject_Z total / inject_Z 0 == 0).
      { unfold Qdiv. change (/ inject_Z 0) with 0. ring. }
      rewrite Hz. split; lra.
    - assert (Hpos : 0 < inject_Z count).
      { change 0 with (inject_Z 0). rewrite <- Zlt_Qlt. lia. }
      split.
      + apply Qle_shift_div_l; [assumption |].
        rewrite Qmult_0_l. change 0 with (inject_Z 0). rewrite <- Zle_Qle. lia.
      + apply Qle_shift_div_r; [assumption |].
        change 255 with (inject_Z 255). rewrite <- inject_Z_mult, <- Zle_Qle.
        lia. }
  destruct Hm as [Hm0 Hm1].
  destruct (binary64_between (inject_Z total / inject_Z count) 0 255)
    as [M0 M1]; try (cbn; lia); try assumption.
  change (inject_Z 0) with 0 in M0. change (inject_Z 255) with 255 in M1.
  unfold fadd, fdiv.
  set (m := IEEE.binary64 (inject_Z total / inject_Z count)) in *.
  assert (S0 : 0 <= IEEE.binary64 (m + (1 # 2))).
  { apply round_nonneg. lra. }
  assert (S1 : IEEE.binary64 (m + (1 # 2)) <= 511 # 2).
  { assert (E : IEEE.binary64 (511 # 2) == 511 # 2) by (vm_compute; reflexivity).
    rewrite <- E. apply binary64_le. lra. }
  rewrite py_int_nonneg by assumption.
  unfold sample_ok. split.
  - change 0%Z with (Qfloor 0). now apply Qfloor_resp_le.
  - pose proof (Qfloor_le (IEEE.binary64 (m + (1 # 2)))) as Hfl.
    assert (Hz : inject_Z (Qfloor (IEEE.binary64 (m + (1 # 2))))
                 < inject_Z 256).
    { change (inject_Z 256) with 256. lra. }
    rewrite <- Zlt_Qlt in Hz. lia.
Qed.

Local Close Scope Q_scope.
(** ** Lemmas on rasters *)

Lemma luma_range (r g b : Z) :
  sample_ok r -> sample_ok g -> sample_ok b -> sample_ok (PIL.luma r g b).
Proof.
  unfold sample_ok, PIL.luma. intros Hr Hg Hb.
  rewrite Z.shiftr_div_pow2 by lia. change (2 ^ 16) with 65536.
  split.
  - apply Z.div_pos; lia.
  - assert (Hlt : (r * 19595 + g * 38470 + b * 7471 + 32768) / 65536 < 256)
      by (apply Z.div_lt_upper_bound; lia).
    lia.
Qed.

Lemma luma_plane_range (rs : list Z) :
  forall gs bs,
  Forall sample_ok rs -> Forall sample_ok gs -> Forall sample_ok bs ->
  Forall sample_ok (PIL.luma_plane rs gs bs).
Proof.
  induction rs as [| r rs IH]; intros gs bs Hr Hg Hb; cbn [PIL.luma_plane].
  - constructor.
  - destruct gs as [| g gs]; [constructor |].
    destruct bs as [| b bs]; [constructor |].
    inversion Hr; inversion Hg; inversion Hb; subst.
    constructor; [now apply luma_range | now apply IH].
Qed.

Lemma sum_range (ys : list Z) :
  Forall sample_ok ys ->
  0 <= fold_right Z.add 0 ys <= 255 * Z.of_nat (length ys).
Proof.
  induction 1 as [| y ys Hy _ IH]; cbn [fold_right length]; [lia |].
  unfold sample_ok in Hy. lia.
Qed.

Lemma zipWith_repeat {A B C} (g : A -> B -> C) (k : A) (ys : list B) :
  zipWith g (repeat k (length ys)) ys = map (g k) ys.
Proof. induction ys as [| y ys IH]; cbn; [reflexivity | now rewrite IH]. Qed.

Lemma zipWith_uniform {A B C} (g : A -> B -> C) (k : A) (n : nat)
    (bs : list (list B)) :
  Forall (fun b => length b = n) bs ->
  zipWith (zipWith g) (repeat (repeat k n) (length bs)) bs
  = map (map (g k)) bs.
Proof.
  induction 1 as [| b bs Hb _ IH]; cbn [length repeat zipWith map];
    [reflexivity |].
  rewrite IH. f_equal. subst n. apply zipWith_repeat.
Qed.

Lemma map_map_ext_Forall {A B} (P : A -> Prop) (f h : A -> B)
    (bs : list (list A)) :
  (forall v, P v -> f v = h v) -> Forall (Forall P) bs ->
  map (map f) bs = map (map h) bs.
Proof.
  intros Hfh. induction 1 as [| b bs Hb _ IH]; cbn [map]; [reflexivity |].
  rewrite IH. f_equal.
  induction Hb as [| v b Hv _ IHb]; cbn [map]; [reflexivity |].
  now rewrite IHb, Hfh.
Qed.

Lemma wf_point (f : Z -> Z) (img : Image) :
  (forall v, sample_ok (f v)) -> wf_image img -> wf_image (PIL.point f img).
Proof.
  intros Hf [Hb Hp Hs]. constructor; cbn [PIL.point bands mode size].
  - now rewrite length_map.
  - rewrite Forall_map. eapply Forall_impl; [| exact Hp].
    intros b Hlen. cbn beta. now rewrite length_map.
  - rewrite Forall_map. eapply Forall_impl; [| exact Hs].
    intros b _. rewrite Forall_map. apply Forall_forall. intros v _. apply Hf.
Qed.

Lemma point_id (f : Z -> Z) (img : Image) :
  (forall v, sample_ok v -> f v = v) -> wf_image img -> PIL.point f img = img.
Proof.
  intros Hf [_ _ Hs]. unfold PIL.point. destruct img as [m sz bs].
  cbn [mode size bands] in *. f_equal.
  rewrite (map_map_ext_Forall sample_ok f (fun v => v)) by assumption.
  rewrite <- (map_id bs) at 2. apply map_ext. intros b. apply map_id.
Qed.

Lemma map_const_repeat {A B} (k : B) (l : list A) :
  map (fun _ => k) l = repeat k (length l).
Proof.
  induction l as [| x l IH]; cbn [map length repeat]; [reflexivity |].
  now rewrite IH.
Qed.

Lemma map_const_planes {A B} (k : B) (n : nat) (bs : list (list A)) :
  Forall (fun b => length b = n) bs ->
  map (map (fun _ => k)) bs = repeat (repeat k n) (length bs).
Proof.
  induction 1 as [| b bs Hb _ IH]; cbn [map length repeat]; [reflexivity |].
  rewrite IH, map_const_repeat, Hb. reflexivity.
Qed.

(** Blending a solid image of level [k] with [img]: the two shortcuts of
    [ImagingBlend] give what its loops would give. *)
Lemma blend_solid (solid img : Image) (k : Z) (alpha : Q) :
  wf_image img -> sample_ok k ->
  mode solid = mode img -> size solid = size img ->
  bands solid
  = repeat (repeat k (npixels (size img))) (length (bands img)) ->
  PIL.blend solid img alpha
  = PIL.point (PIL.blend_sample (IEEE.binary32 alpha) k) img.
Proof.
  intros Hwf Hk Hmode Hsize Hbands. pose proof Hwf as [_ Hplane Hsample].
  unfold PIL.blend. cbv zeta.
  destruct (Qeq_bool (IEEE.binary32 alpha) 0) eqn:E0.
  - apply Qeq_bool_iff in E0.
    destruct solid as [m sz bs]. cbn [mode size bands] in *. subst m sz bs.
    unfold PIL.point. f_equal.
    rewrite (map_map_ext_Forall sample_ok _ (fun _ => k)).
    + symmetry. now apply map_const_planes.
    + intros v Hv. now apply blend_sample_zero.
    + exact Hsample.
  - destruct (Qeq_bool (IEEE.binary32 alpha) 1) eqn:E1.
    + apply Qeq_bool_iff in E1. rewrite Hmode, Hsize.
      transitivity img; [now destruct img |].
      symmetry. apply point_id; [| exact Hwf].
      intros v Hv. now apply blend_sample_one.
    + unfold PIL.point. rewrite Hmode, Hsize, Hbands. f_equal.
      now apply zipWith_uniform.
Qed.

Lemma Brightness_enhance_point (img : Image) (factor : Q) :
  mode img = RGB -> wf_image img ->
  PIL.Brightness_enhance img factor
  = PIL.point (PIL.blend_sample (IEEE.binary32 factor) 0) img.
Proof.
  intros Hmode Hwf. unfold PIL.Brightness_enhance.
  apply blend_solid; try assumption; try reflexivity.
  - unfold sample_ok. lia.
  - rewrite Hmode. destruct Hwf as [Hb _ _]. rewrite Hb, Hmode. reflexivity.
Qed.

Lemma Contrast_mean_range (img : Image) :
  mode img = RGB -> wf_image img -> sample_ok (PIL.Contrast_mean img).
Proof.
  intros Hmode [_ _ Hs]. unfold PIL.Contrast_mean, PIL.mean0, PIL.convert.
  rewrite Hmode. cbn [bands nth].
  apply rounded_mean_range; [lia |].
  apply sum_range, luma_plane_range;
    (destruct (nth_in_or_default 0 (bands img) []) as [Hin | ->];
     [ now apply (proj1 (Forall_forall _ _) Hs) | constructor ])
    || (destruct (nth_in_or_default 1 (bands img) []) as [Hin | ->];
        [ now apply (proj1 (Forall_forall _ _) Hs) | constructor ])
    || (destruct (nth_in_or_default 2 (bands img) []) as [Hin | ->];
        [ now apply (proj1 (Forall_forall _ _) Hs) | constructor ]).
Qed.

Lemma Contrast_enhance_point (img : Image) (factor : Q) :
  mode img = RGB -> wf_image img ->
  PIL.Contrast_enhance img factor
  = PIL.point
      (PIL.blend_sample (IEEE.binary32 factor) (PIL.Contrast_mean img)) img.
Proof.
  intros Hmode Hwf. unfold PIL.Contrast_enhance.
  apply blend_solid; try assumption.
  - now apply Contrast_mean_range.
  - rewrite Hmode. reflexivity.
  - rewrite Hmode. reflexivity.
  - rewrite Hmode. destruct Hwf as [Hb _ _]. rewrite Hb, Hmode. reflexivity.
Qed.

(** ** C7 *)

(** C7. On every RGB image, [adjust_brightness_contrast] with brightness 0
    and contrast 1.0 returns the image itself; running the two enhancers at
    these default parameters, instead of skipping them, gives the same
    image, sample for sample. *)
Theorem adjust_brightness_contrast_default_identity (img : Image) :
  mode img = RGB -> wf_image img ->
  adjust_brightness_contrast img 0 1 = img /\
  PIL.Contrast_enhance (PIL.Brightness_enhance img (1 + 0 / 100)) 1 = img.
Proof.
  intros Hmode Hwf. split.
  - unfold adjust_brightness_contrast, ensure_RGB. rewrite Hmode. reflexivity.
  - assert (Hb : PIL.Brightness_enhance img (1 + 0 / 100) = img).
    { rewrite Brightness_enhance_point by assumption.
      apply point_id; [| assumption].
      intros v Hv. apply blend_sample_one; try assumption.
      - vm_compute. reflexivity.
      - unfold sample_ok. lia. }
    rewrite Hb, Contrast_enhance_point by assumption.
    apply point_id; [| assumption].
    intros v Hv. apply blend_sample_one; try assumption.
    + vm_compute. reflexivity.
    + now apply Contrast_mean_range.
Qed.

Lemma wf_grey_pixel (v : Z) : sample_ok v -> wf_image (grey_pixel v).
Proof.
  intros Hv. constructor; cbn.
  - reflexivity.
  - repeat (apply Forall_cons; [reflexivity |]). apply Forall_nil.
  - repeat (apply Forall_cons;
            [apply Forall_cons; [assumption | apply Forall_nil] |]).
    apply Forall_nil.
Qed.

Lemma adjust_brightness_contrast_default_identity_witness :
  mode (grey_pixel 100) = RGB /\ wf_image (grey_pixel 100) /\
  adjust_brightness_contrast (grey_pixel 100) 0 1 = grey_pixel 100 /\
  PIL.Contrast_enhance (PIL.Brightness_enhance (grey_pixel 100) (1 + 0 / 100)) 1
  = grey_pixel 100.
Proof.
  assert (Hwf : wf_image (grey_pixel 100)).
  { apply wf_grey_pixel. unfold sample_ok. lia. }
  split; [reflexivity | split; [exact Hwf |]].
  exact (adjust_brightness_contrast_default_identity (grey_pixel 100)
           eq_refl Hwf).
Defined.

(** ** C5 *)

Lemma Qneqb_false (a b : Q) : Qneqb a b = false -> (a == b)%Q.
Proof.
  unfold Qneqb. intros H. apply Qeq_bool_iff.
  now destruct (Qeq_bool a b).
Qed.

Local Open Scope Q_scope.

(** The rounding error of the two formats on [[-2^k, 2^k]]. *)
Lemma binary32_error (x : Q) (k : Z) :
  (-125 <= k)%Z -> - IEEE.pow2 k <= x -> x <= IEEE.pow2 k ->
  x - IEEE.pow2 (k - 24) <= IEEE.binary32 x /\
  IEEE.binary32 x <= x + IEEE.pow2 (k - 24).
Proof.
  intros Hk Hlo Hhi. apply round_error; try lia.
  apply Qabs_Qle_condition. split; assumption.
Qed.

Lemma binary64_error (x : Q) (k : Z) :
  (-1021 <= k)%Z -> - IEEE.pow2 k <= x -> x <= IEEE.pow2 k ->
  x - IEEE.pow2 (k - 53) <= IEEE.binary64 x /\
  IEEE.binary64 x <= x + IEEE.pow2 (k - 53).
Proof.
  intros Hk Hlo Hhi. apply round_error; try lia.
  apply Qabs_Qle_condition. split; assumption.
Qed.

Lemma clip8_le (x y : Q) : x <= y -> (PIL.clip8 x <= PIL.clip8 y)%Z.
Proof.
  intros Hxy. pose proof (clip8_range x) as Rx.
  pose proof (clip8_range y) as Ry. unfold sample_ok in Rx, Ry.
  unfold PIL.clip8 in *.
  destruct (Qle_bool x 0) eqn:X0; [lia |].
  assert (Hx0 : ~ x <= 0) by (rewrite <- Qle_bool_iff; congruence).
  assert (Y0 : Qle_bool y 0 = false).
  { apply not_true_iff_false. intros H. apply Qle_bool_iff in H. lra. }
  rewrite Y0 in *.
  destruct (Qle_bool 255 y) eqn:Y1; [lia |].
  assert (Hy1 : ~ 255 <= y) by (rewrite <- Qle_bool_iff; congruence).
  assert (X1 : Qle_bool 255 x = false).
  { apply not_true_iff_false. intros H. apply Qle_bool_iff in H. lra. }
  rewrite X1 in *. now apply Qfloor_resp_le.
Qed.

Lemma clip8_succ (x : Q) : (PIL.clip8 (x + 1) <= PIL.clip8 x + 1)%Z.
Proof.
  pose proof (clip8_range x) as Rx. unfold sample_ok in Rx.
  unfold PIL.clip8 in *.
  destruct (Qle_bool (x + 1) 0) eqn:S0; [lia |].
  assert (Hs0 : ~ x + 1 <= 0) by (rewrite <- Qle_bool_iff; congruence).
  assert (Hfl : Qfloor (x + 1) = (Qfloor x + 1)%Z).
  { destruct (Qfloor_bounds x) as [Xlo Xhi].
    destruct (Qfloor_bounds (x + 1)) as [Slo Shi].
    assert (H1 : inject_Z (Qfloor x + 1) <= x + 1).
    { rewrite inject_Z_plus. change (inject_Z 1) with 1. lra. }
    assert (H2 : x + 1 < inject_Z (Qfloor x + 1 + 1)).
    { rewrite !inject_Z_plus. change (inject_Z 1) with 1. lra. }
    assert (H3 : inject_Z (Qfloor (x + 1)) < inject_Z (Qfloor x + 1 + 1))
      by lra.
    assert (H4 : inject_Z (Qfloor x + 1) < inject_Z (Qfloor (x + 1)) + 1)
      by lra.
    rewrite <- Zlt_Qlt in H3.
    assert (H5 : inject_Z (Qfloor x + 1) < inject_Z (Qfloor (x + 1) + 1)).
    { rewrite (inject_Z_plus (Qfloor (x + 1))). exact H4. }
    rewrite <- Zlt_Qlt in H5. lia. }
  destruct (Qle_bool x 0) eqn:X0.
  - apply Qle_bool_iff in X0.
    destruct (Qle_bool 255 (x + 1)) eqn:S1.
    + apply Qle_bool_iff in S1. lra.
    + rewrite Hfl.
      assert (Hf : (Qfloor x <= Qfloor 0)%Z) by now apply Qfloor_resp_le.
      change (Qfloor 0) with 0%Z in Hf. lia.
  - assert (Hx0 : ~ x <= 0) by (rewrite <- Qle_bool_iff; congruence).
    destruct (Qle_bool 255 x) eqn:X1.
    + apply Qle_bool_iff in X1.
      destruct (Qle_bool 255 (x + 1)) eqn:S1; [lia |].
      assert (Hs1 : ~ 255 <= x + 1) by (rewrite <- Qle_bool_iff; congruence).
      lra.
    + assert (Hx1 : ~ 255 <= x) by (rewrite <- Qle_bool_iff; congruence).
      destruct (Qle_bool 255 (x + 1)) eqn:S1.
      * apply Qle_bool_iff in S1.
        assert (Hf : (Qfloor 254 <= Qfloor x)%Z)
          by (apply Qfloor_resp_le; lra).
        change (Qfloor 254) with 254%Z in Hf. lia.
      * rewrite Hfl. lia.
Qed.

(** Two values less than one apart are cut to samples at most one level
    apart. *)
Lemma clip8_close (x y : Q) :
  x - 1 <= y -> y <= x + 1 -> (Z.abs (PIL.clip8 y - PIL.clip8 x) <= 1)%Z.
Proof.
  intros Hlo Hhi.
  pose proof (clip8_le y (x + 1) Hhi) as H1.
  pose proof (clip8_succ x) as H2.
  pose proof (clip8_le x (y + 1) ltac:(lra)) as H3.
  pose proof (clip8_succ y) as H4. lia.
Qed.

Lemma product_error (e v d V : Q) :
  - d <= e -> e <= d -> 0 <= v -> v <= V ->
  - (d * V) <= e * v /\ e * v <= d * V.
Proof. intros. split; nra. Qed.

Lemma product_error_abs (e v d V : Q) :
  - d <= e -> e <= d -> - V <= v -> v <= V ->
  - (d * V) <= e * v /\ e * v <= d * V.
Proof.
  intros Hlo Hhi Vlo Vhi. destruct (Qlt_le_dec v 0) as [Hneg | Hpos].
  - destruct (product_error (- e) (- v) d V) as [A B]; lra.
  - apply product_error; lra.
Qed.

(** The double [1 + brightness/100] and its single-precision value. *)
Lemma brightness_factor_bounds (brightness : Q) :
  -100 <= brightness -> brightness <= 100 ->
  let F := 1 + brightness * (1 # 100) in
  let a := IEEE.binary32 (fadd 1 (fdiv brightness 100)) in
  0 <= a /\ a <= 2 /\
  F - (1 # 4194304) <= a /\ a <= F + (1 # 4194304).
Proof.
  intros Hlo Hhi F a. unfold a, fadd, fdiv.
  assert (Hq : brightness / 100 == brightness * (1 # 100))
    by (unfold Qdiv; reflexivity).
  rewrite Hq. set (x := brightness * (1 # 100)) in *.
  assert (Hx : -1 <= x /\ x <= 1) by (unfold x; split; lra).
  destruct Hx as [X0 X1].
  destruct (binary64_error x 0) as [Q0 Q1]; try lia; eval_pow2; try lra.
  destruct (binary64_between x (-1) 1) as [Q2 Q3]; try (cbn; lia);
    try assumption.
  change (inject_Z (-1)) with (-1) in Q2. change (inject_Z 1) with 1 in Q3.
  set (q := IEEE.binary64 x) in *.
  destruct (binary64_error (1 + q) 1) as [F0 F1]; try lia; eval_pow2;
    try lra.
  destruct (binary64_between (1 + q) 0 2) as [F2 F3]; try (cbn; lia);
    try (change (inject_Z 0) with 0; change (inject_Z 2) with 2; lra).
  change (inject_Z 0) with 0 in F2. change (inject_Z 2) with 2 in F3.
  set (f := IEEE.binary64 (1 + q)) in *.
  destruct (binary32_error f 1) as [A0 A1]; try lia; eval_pow2; try lra.
  destruct (binary32_between f 0 2) as [A2 A3]; try (cbn; lia);
    try assumption.
  change (inject_Z 0) with 0 in A2. change (inject_Z 2) with 2 in A3.
  unfold F. repeat split; lra.
Qed.

(** The brightness step is within one level of [value * factor]. *)
Lemma brightness_sample_close (brightness : Q) (v : Z) :
  -100 <= brightness -> brightness <= 100 -> sample_ok v ->
  (Z.abs (PIL.blend_sample
            (IEEE.binary32 (fadd 1 (fdiv brightness 100))) 0 v
          - scale_sample (1 + brightness / 100) v) <= 1)%Z.
Proof.
  intros Hlo Hhi Hv.
  rewrite blend_sample_clip8 by (assumption || (unfold sample_ok; lia)).
  unfold scale_sample.
  destruct (brightness_factor_bounds brightness Hlo Hhi)
    as (A0 & A1 & A2 & A3).
  set (a := IEEE.binary32 (fadd 1 (fdiv brightness 100))) in *.
  pose proof (inject_sample v Hv) as [V0 V1].
  assert (HF : (1 + brightness / 100) * inject_Z v
               == (1 + brightness * (1 # 100)) * inject_Z v)
    by (unfold Qdiv; reflexivity).
  rewrite (clip8_comp _ _ HF).
  set (F := 1 + brightness * (1 # 100)) in *.
  change (inject_Z 0) with 0.
  set (w := inject_Z v) in *.
  assert (Hp : 0 <= a * (w - 0) /\ a * (w - 0) <= 510) by (split; nra).
  destruct Hp as [P0 P1].
  destruct (binary32_error (a * (w - 0)) 9) as [T0 T1]; try lia; eval_pow2;
    try lra.
  destruct (binary32_between (a * (w - 0)) 0 510) as [T2 T3];
    try (cbn; lia); try assumption.
  change (inject_Z 0) with 0 in T2. change (inject_Z 510) with 510 in T3.
  set (t := IEEE.binary32 (a * (w - 0))) in *.
  destruct (binary32_error (0 + t) 9) as [S0 S1]; try lia; eval_pow2;
    try lra.
  destruct (product_error (a - F) w (1 # 4194304) 255) as [E0 E1]; try lra.
  apply clip8_close; lra.
Qed.

(** The contrast step about a pivot is within one level of
    [(value - pivot) * contrast + pivot]. *)
Lemma contrast_sample_close (contrast : Q) (pivot v : Z) :
  0 <= contrast -> contrast <= 3 -> sample_ok pivot -> sample_ok v ->
  (Z.abs (PIL.blend_sample (IEEE.binary32 contrast) pivot v
          - contrast_about pivot contrast v) <= 1)%Z.
Proof.
  intros Hlo Hhi Hm Hv.
  rewrite blend_sample_clip8 by assumption.
  unfold contrast_about.
  pose proof (inject_sample v Hv) as [V0 V1].
  pose proof (inject_sample pivot Hm) as [M0 M1].
  set (w := inject_Z v) in *. set (m := inject_Z pivot) in *.
  destruct (binary32_error contrast 2) as [A0 A1]; try lia; eval_pow2;
    try lra.
  destruct (binary32_between contrast 0 3) as [A2 A3]; try (cbn; lia);
    try assumption.
  change (inject_Z 0) with 0 in A2. change (inject_Z 3) with 3 in A3.
  set (a := IEEE.binary32 contrast) in *.
  assert (Hp : -765 <= a * (w - m) /\ a * (w - m) <= 765).
  { destruct (product_error_abs (w - m) a 255 3); lra. }
  destruct Hp as [P0 P1].
  destruct (binary32_error (a * (w - m)) 10) as [T0 T1]; try lia; eval_pow2;
    try lra.
  destruct (binary32_between (a * (w - m)) (-765) 765) as [T2 T3];
    try (cbn; lia); try assumption.
  change (inject_Z (-765)) with (-765) in T2.
  change (inject_Z 765) with 765 in T3.
  set (t := IEEE.binary32 (a * (w - m))) in *.
  destruct (binary32_error (m + t) 10) as [S0 S1]; try lia; eval_pow2;
    try lra.
  destruct (product_error_abs (a - contrast) (w - m) (1 # 4194304) 255)
    as [E0 E1]; try lra.
  apply clip8_close; lra.
Qed.

Local Close Scope Q_scope.

(** The NumPy variant, plane by plane. *)
Lemma adjust_brightness_contrast_numpy_planes
    (img : Image) (brightness contrast : Q) :
  adjust_brightness_contrast_numpy true img brightness contrast
  = mkImage
      (match map (map (numpy_sample brightness contrast)) (bands img) with
       | [_] => L
       | _ => RGB
       end)
      (size img)
      (map (map (numpy_sample brightness contrast)) (bands img)).
Proof.
  unfold adjust_brightness_contrast_numpy. cbn [negb].
  unfold np.fromarray, np.amap, np.array. cbn [np.planes np.shape].
  assert (Hplanes :
    map (map (fun v : Q => np.to_uint8 (np.clip1 0 255 v)))
      (map (map (fun v : Q => fadd (fmul (fsub v 128) contrast) 128))
         (map (map (fun v : Q =>
                      fadd v (fmul brightness (float_of (255 # 100)))))
            (map (map inject_Z) (bands img))))
    = map (map (numpy_sample brightness contrast)) (bands img)).
  { rewrite !map_map. apply map_ext. intros p.
    rewrite !map_map. apply map_ext. intros v.
    unfold numpy_sample. reflexivity. }
  now rewrite Hplanes.
Qed.

(** C5, as the code has it.  On an RGB image, for a brightness in
    [-100,100] and a contrast in [0,3], [adjust_brightness_contrast] blends
    the image with black at the factor [1 + brightness/100], and then
    blends the result with the grey whose level is the rounded mean luma of
    that brightened image: the contrast pivots on this mean, not on 128.
    Both blends are Pillow's, computed in single precision; sample for
    sample they are within one level of [value * factor] and of
    [(value - pivot) * contrast + pivot], cut to [0,255].  The pivot 128 is
    that of [adjust_brightness_contrast_numpy], whose brightness step adds
    [2.55 * brightness] instead of scaling.  The image has at least one
    pixel and fewer than 2^45, so that Pillow's mean is the rounded exact
    mean. *)
Theorem brightness_then_contrast_about_mean
    (img : Image) (brightness contrast : Q) :
  mode img = RGB -> wf_image img ->
  (0 < npixels (size img))%nat -> Z.of_nat (npixels (size img)) < 2 ^ 45 ->
  (-100 <= brightness)%Q -> (brightness <= 100)%Q ->
  (0 <= contrast)%Q -> (contrast <= 3)%Q ->
  let factor := fadd 1 (fdiv brightness 100) in
  let brightened :=
    PIL.point (PIL.blend_sample (IEEE.binary32 factor) 0) img in
  let pivot := PIL.Contrast_mean brightened in
  adjust_brightness_contrast img brightness contrast
  = PIL.point (PIL.blend_sample (IEEE.binary32 contrast) pivot) brightened /\
  (forall v, sample_ok v ->
     Z.abs (PIL.blend_sample (IEEE.binary32 factor) 0 v
            - scale_sample (1 + brightness / 100) v) <= 1 /\
     Z.abs (PIL.blend_sample (IEEE.binary32 contrast) pivot v
            - contrast_about pivot contrast v) <= 1) /\
  adjust_brightness_contrast_numpy true img brightness contrast
  = PIL.point (numpy_sample brightness contrast) img.
Proof.
  intros Hmode Hwf _ _ Hb0 Hb1 Hc0 Hc1 factor brightened pivot.
  assert (Hwfb : wf_image brightened).
  { apply wf_point; [| assumption]. intros v. apply blend_sample_range. }
  assert (Hmodeb : mode brightened = RGB) by exact Hmode.
  assert (Hpivot : sample_ok pivot) by now apply Contrast_mean_range.
  split; [| split].
  - unfold adjust_brightness_contrast, ensure_RGB. rewrite Hmode.
    cbn [Mode_eqb negb].
    assert (Hstep1 :
      (if Qneqb brightness 0
       then PIL.Brightness_enhance img (fadd 1 (fdiv brightness 100))
       else img) = brightened).
    { destruct (Qneqb brightness 0) eqn:Eb.
      - now apply Brightness_enhance_point.
      - symmetry. apply point_id; [| assumption].
        intros v Hv. apply blend_sample_one; try assumption.
        + apply Qneqb_false in Eb. unfold factor. rewrite Eb.
          vm_compute. reflexivity.
        + unfold sample_ok. lia. }
    rewrite Hstep1.
    destruct (Qneqb contrast 1) eqn:Ec.
    + now apply Contrast_enhance_point.
    + symmetry. apply point_id; [| assumption].
      intros v Hv. apply blend_sample_one; try assumption.
      apply Qneqb_false in Ec. rewrite Ec. vm_compute. reflexivity.
  - intros v Hv. split.
    + now apply brightness_sample_close.
    + now apply contrast_sample_close.
  - rewrite adjust_brightness_contrast_numpy_planes.
    unfold PIL.point. f_equal.
    destruct Hwf as [Hb _ _]. rewrite Hmode in *. cbn [nbands] in Hb.
    destruct (bands img) as [| r [| g [| b [| ? ?]]]]; try discriminate.
    reflexivity.
Qed.

Lemma brightness_then_contrast_about_mean_witness :
  mode (grey_pixel 100) = RGB /\ wf_image (grey_pixel 100) /\
  (0 < npixels (size (grey_pixel 100)))%nat /\
  adjust_brightness_contrast (grey_pixel 100) 50 2
  = PIL.point
      (PIL.blend_sample (IEEE.binary32 2)
         (PIL.Contrast_mean
            (PIL.point
               (PIL.blend_sample
                  (IEEE.binary32 (fadd 1 (fdiv 50 100))) 0)
               (grey_pixel 100))))
      (PIL.point
         (PIL.blend_sample (IEEE.binary32 (fadd 1 (fdiv 50 100))) 0)
         (grey_pixel 100)).
Proof.
  assert (Hwf : wf_image (grey_pixel 100)).
  { apply wf_grey_pixel. unfold sample_ok. lia. }
  assert (Hpx : (0 < npixels (size (grey_pixel 100)))%nat) by (cbn; lia).
  split; [reflexivity | split; [exact Hwf | split; [exact Hpx |]]].
  exact (proj1 (brightness_then_contrast_about_mean (grey_pixel 100) 50 2
                  eq_refl Hwf Hpx ltac:(cbn; lia)
                  ltac:(unfold Qle; cbn; lia) ltac:(unfold Qle; cbn; lia)
                  ltac:(unfold Qle; cbn; lia) ltac:(unfold Qle; cbn; lia))).
Defined.

(** C5 as stated fails.  With contrast 2.0 a one-pixel image of level 200 is
    left at 200 by the code (its mean is the pivot), where the formula about
    128 gives 255; and the NumPy variant turns level 100 at brightness 50
    into 227, where the multiplicative brightness gives 150. *)
Lemma contrast_about_128_counterexample :
  adjust_brightness_contrast (grey_pixel 200) 0 2 = grey_pixel 200 /\
  spec_brightness_contrast (grey_pixel 200) 0 2 = grey_pixel 255 /\
  adjust_brightness_contrast_numpy true (grey_pixel 100) 50 1
  = grey_pixel 227 /\
  spec_brightness_contrast (grey_pixel 100) 50 1 = grey_pixel 150.
Proof. repeat split; vm_compute; reflexivity. Qed.

(** ** C10 *)

(** C10. For every image and every filter name outside the ten predefined
    names, [apply_filter] returns the image it was given; it raises
    nothing. *)
Theorem apply_filter_unknown_name
    (px : Pillow) (image : Image) (filter_name : string) :
  ~ In filter_name
      [ "blur"; "contour"; "detail"; "edge_enhance"; "edge_enhance_more";
        "emboss"; "find_edges"; "sharpen"; "smooth"; "smooth_more" ]%string ->
  apply_filter px image filter_name = image.
Proof.
  intros Hnot. unfold apply_filter, filters, dict_get.
  repeat match goal with
  | |- context [String.eqb filter_name ?k] =>
      destruct (String.eqb_spec filter_name k) as [-> | _];
      [ exfalso; apply Hnot; cbn; tauto | ]
  end.
  reflexivity.
Qed.

Lemma apply_filter_unknown_name_witness :
  ~ In "posterize"%string
      [ "blur"; "contour"; "detail"; "edge_enhance"; "edge_enhance_more";
        "emboss"; "find_edges"; "sharpen"; "smooth"; "smooth_more" ]%string /\
  apply_filter Plain.px (grey_pixel 7) "posterize" = grey_pixel 7.
Proof.
  assert (Hnot : ~ In "posterize"%string
      [ "blur"; "contour"; "detail"; "edge_enhance"; "edge_enhance_more";
        "emboss"; "find_edges"; "sharpen"; "smooth"; "smooth_more" ]%string).
  { cbn. intros H. repeat (destruct H as [H | H]; [discriminate H |]). exact H. }
  split; [exact Hnot |].
  exact (apply_filter_unknown_name Plain.px (grey_pixel 7) "posterize" Hnot).
Defined.

(** ** C8 *)

(** C8. Invalid geometry parameters are silent no-ops: a crop whose
    rectangle, once its coordinates are clamped into the image, has
    right <= left or bottom <= top, a resize to a width or a height that is
    not positive, and a resize by a percentage that is not positive each
    return the image they were given, and raise nothing. *)
Theorem invalid_geometry_is_noop
    (px : Pillow) (image : Image) (left top right bottom width height : Z)
    (keep_aspect_ratio : bool) (percentage : Q) :
  (Z.max 0 (Z.min right (fst (size image)))
     <= Z.max 0 (Z.min left (fst (size image))) \/
   Z.max 0 (Z.min bottom (snd (size image)))
     <= Z.max 0 (Z.min top (snd (size image))) ->
   crop_image px image left top right bottom = Ok image) /\
  (width <= 0 \/ height <= 0 ->
   resize_image px image width height keep_aspect_ratio = Ok image) /\
  ((percentage <= 0)%Q ->
   resize_by_percentage px image percentage = Ok image).
Proof.
  repeat split.
  - intros Hcrop. unfold crop_image.
    destruct (size image) as [w h]. cbn [fst snd] in Hcrop.
    destruct (Z.leb_spec (Z.max 0 (Z.min right w)) (Z.max 0 (Z.min left w)));
      [reflexivity |].
    destruct (Z.leb_spec (Z.max 0 (Z.min bottom h)) (Z.max 0 (Z.min top h)));
      [reflexivity | lia].
  - intros Hsize. unfold resize_image.
    destruct (Z.leb_spec width 0); [reflexivity |].
    destruct (Z.leb_spec height 0); [reflexivity | lia].
  - intros Hpct. unfold resize_by_percentage.
    apply Qle_bool_iff in Hpct. now rewrite Hpct.
Qed.

Lemma invalid_geometry_is_noop_witness :
  crop_image Plain.px (centre_dot 9) 2 0 1 3 = Ok (centre_dot 9) /\
  resize_image Plain.px (centre_dot 9) 0 100 true = Ok (centre_dot 9) /\
  resize_by_percentage Plain.px (centre_dot 9) (-50) = Ok (centre_dot 9).
Proof.
  destruct (invalid_geometry_is_noop Plain.px (centre_dot 9) 2 0 1 3 0 100
              true (-50)) as (Hcrop & Hresize & Hpct).
  split; [apply Hcrop; left; cbn; lia |].
  split; [apply Hresize; left; lia |].
  apply Hpct. unfold Qle. cbn. lia.
Defined.

(** ** C6 *)

(** C6, as the code has it.  The sharpen filter applies the sharpening
    kernel once and, when the intensity exceeds 1.0, [int(intensity)] more
    times: [1 + floor(intensity)] passes in all, two for an intensity
    between 1.0 and 2.0 and three at 2.0; one pass otherwise. *)
Theorem sharpen_passes_one_plus_floor
    (px : Pillow) (numpy : bool) (self : App) (img : Image) (intensity : Q) :
  fst (apply_current_filter px numpy self img "sharpen" intensity)
  = Nat.iter
      (if Qltb 1 intensity then 1 + Z.to_nat (py_int intensity) else 1)
      (filter px SHARPEN) img.
Proof.
  unfold apply_current_filter. cbv beta zeta. eval_string_tests.
  cbn [fst]. destruct (Qltb 1 intensity).
  - change (1 + Z.to_nat (py_int intensity))%nat
      with (S (Z.to_nat (py_int intensity))).
    now rewrite Nat.iter_succ_r.
  - reflexivity.
Qed.

(** C6 as stated fails.  At intensity 1.2 the specification's count is
    [max(1, round(1.2))] = 1 pass and the code makes 2; at 2.0 the count is
    2 and the code makes 3.  On a black 3x3 image with one grey pixel in
    the centre the results differ. *)
Lemma sharpen_round_counterexample :
  spec_sharpen_passes (12 # 10) = 1%nat /\
  fst (apply_current_filter Plain.px true (new_app (fun _ => 0%Q))
         (centre_dot 100) "sharpen" (12 # 10))
  <> Nat.iter (spec_sharpen_passes (12 # 10)) (filter Plain.px SHARPEN)
       (centre_dot 100) /\
  spec_sharpen_passes 2 = 2%nat /\
  fst (apply_current_filter Plain.px true (new_app (fun _ => 0%Q))
         (centre_dot 50) "sharpen" 2)
  <> Nat.iter (spec_sharpen_passes 2) (filter Plain.px SHARPEN)
       (centre_dot 50).
Proof.
  repeat split; try reflexivity; vm_compute; discriminate.
Qed.

(** ** C9 *)

Lemma to_uint8_range (v : Q) : sample_ok (np.to_uint8 v).
Proof.
  unfold sample_ok, np.to_uint8.
  pose proof (Z.mod_pos_bound (py_int v) 256). lia.
Qed.



Lemma blend_shape (im1 im2 : Image) (alpha : Q) :
  mode (PIL.blend im1 im2 alpha) = mode im1 /\
  size (PIL.blend im1 im2 alpha) = size im1.
Proof.
  unfold PIL.blend. cbv zeta.
  destruct (Qeq_bool (IEEE.binary32 alpha) 0); [split; reflexivity |].
  destruct (Qeq_bool (IEEE.binary32 alpha) 1); split; reflexivity.
Qed.

(** The pencil sketch in terms of the sketch it blends before the noise. *)
Lemma apply_pencil_sketch_unfold
    (px : Pillow) (img : Image) (intensity : Q) :
  exists sketch : Image,
    mode sketch = L /\ size sketch = size (ensure_RGB img) /\
    (forall rs,
       apply_pencil_sketch px false img intensity rs
       = (mkImage RGB (size sketch)
            [nth 0 (bands sketch) []; nth 0 (bands sketch) [];
             nth 0 (bands sketch) []], rs)) /\
    (forall rs,
       let y := nth 0 (bands sketch) [] in
       let z :=
         zipWith (fun s n => (s + n) mod 256) y
           (map (fun k => np.to_uint8 (rs k)) (seq 0 (length y))) in
       apply_pencil_sketch px true img intensity rs
       = (mkImage RGB (size sketch) [z; z; z],
          fun k => rs (length y + k)%nat)).
Proof.
  unfold apply_pencil_sketch. cbv zeta.
  match goal with
  | |- context [PIL.blend ?a ?b ?c] => set (sketch := PIL.blend a b c)
  end.
  assert (Hmode : mode sketch = L).
  { unfold sketch. now rewrite (proj1 (blend_shape _ _ _)). }
  assert (Hsize : size sketch = size (ensure_RGB img)).
  { unfold sketch. now rewrite (proj2 (blend_shape _ _ _)). }
  clearbody sketch. exists sketch. split; [exact Hmode |].
  split; [exact Hsize |]. split.
  - intros rs. unfold PIL.convert. now rewrite Hmode.
  - intros rs. unfold np.normal, np.fromarray, np.array, PIL.convert.
    cbn [np.planes np.shape mode size bands nth]. now rewrite map_map.
Qed.



(** ** C1 *)

(** C1 on the code.  When no filter is selected, [update_image] computes the
    adjusted image and drops it: the processed image and the history are
    those it started with, whatever the sliders say.  With the one-pixel
    image of level 100 loaded and the brightness slider moved to 50, the
    processed image stays at level 100 where steps 1 to 3 give level 150.
    For the same reason [reset_filter] after the invert filter leaves the
    inverted image (level 155) in place. *)
Theorem update_image_without_filter_keeps_processed
    (px : Pillow) (numpy : bool) (self : App) (args : list string)
    (rs : np.RandomState) :
  (processed_image (update_image px numpy (set_current_filter "none" self) args)
   = processed_image self /\
   history (update_image px numpy (set_current_filter "none" self) args)
   = history self) /\
  (processed_image
     (update_image px numpy (set_brightness_slider 50 (loaded_app rs))
        ["force"%string])
   = Some (grey_pixel 100) /\
   apply_adjustments
     (update_image px numpy (set_brightness_slider 50 (loaded_app rs))
        ["force"%string])
     (grey_pixel 100)
   = grey_pixel 150) /\
  (processed_image
     (ImageProcessorApp.apply_filter px numpy (loaded_app rs) "invert")
   = Some (grey_pixel 155) /\
   processed_image
     (ImageProcessorApp.reset_filter px numpy
        (ImageProcessorApp.apply_filter px numpy (loaded_app rs) "invert"))
   = Some (grey_pixel 155)).
Proof.
  split; [| split].
  - unfold update_image.
    cbn [original_image real_time_preview set_current_filter].
    destruct (original_image self); [| split; reflexivity].
    destruct (negb (real_time_preview self) && arg0_is_not args "force");
      [split; reflexivity |].
    match goal with
    | |- context [if ?c then _ else _] => destruct c
    end; split; reflexivity.
  - split; vm_compute; reflexivity.
  - split; vm_compute; reflexivity.
Qed.

(** ** C2 *)

(** C2 on the code.  With NumPy available [apply_histogram_equalization]
    returns the image brightened by the constant factor 1.2, whatever the
    intensity and whatever the equalization computes: the equalized
    luminance is computed and never used.  A one-pixel image of level 100,
    which equalization leaves as it is, comes back at level 120. *)
Theorem histogram_equalization_is_brightness_bump
    (px px' : Pillow) (image : Image) (intensity intensity' : Q) :
  apply_histogram_equalization px true image intensity
  = PIL.Brightness_enhance (ensure_RGB image) (12 # 10) /\
  apply_histogram_equalization px true image intensity
  = apply_histogram_equalization px' true image intensity' /\
  apply_histogram_equalization px false image intensity
  = apply_histogram_equalization px' false image intensity /\
  apply_histogram_equalization px true (grey_pixel 100) 1 = grey_pixel 120.
Proof.
  assert (E : IEEE.binary32 (float_of (12 # 10)) = IEEE.binary32 (12 # 10))
    by (vm_compute; reflexivity).
  split; [| split; [| split]].
  - unfold apply_histogram_equalization, PIL.Brightness_enhance, PIL.blend.
    cbv zeta. now rewrite E.
  - reflexivity.
  - reflexivity.
  - vm_compute. reflexivity.
Qed.
(** * Further properties of the code *)

(** ** The history store under the handlers *)

Lemma add_to_history_push (s : App) (img : Image) :
  processed_image s = Some img -> add_to_history s = push img s.
Proof.
  intros H. unfold push. destruct s. cbn in H. subst. reflexivity.
Qed.

Lemma add_to_history_ok (s : App) :
  history_ok s -> history_ok (add_to_history s).
Proof.
  intros Hok. destruct (processed_image s) as [img |] eqn:E.
  - rewrite (add_to_history_push s img E). now apply push_ok.
  - unfold add_to_history. now rewrite E.
Qed.

Lemma update_image_ok
    (px : Pillow) (numpy : bool) (self : App) (args : list string) :
  history_ok self -> history_ok (update_image px numpy self args).
Proof.
  intros Hok. unfold update_image.
  destruct (original_image self); [| assumption].
  destruct (negb (real_time_preview self) && arg0_is_not args "force");
    [assumption |].
  match goal with
  | |- context [if ?c then _ else _] => destruct c
  end; [assumption |].
  match goal with
  | |- context [if ?c then _ else _] => destruct c
  end; [| exact Hok].
  match goal with
  | |- context [if ?c then _ else _] => destruct c
  end; [exact Hok |].
  match goal with
  | |- context [apply_current_filter ?a ?b ?c ?d ?e ?f] =>
      destruct (apply_current_filter a b c d e f) as [img rs]
  end.
  cbn [state_of returns].
  destruct (arg0_is_not args "history"); [apply add_to_history_ok |];
    exact Hok.
Qed.

Lemma history_ok_set_status_bar (v : StatusText) (s : App) :
  history_ok s -> history_ok (set_status_bar v s).
Proof. intros H. exact H. Qed.

Lemma history_ok_set_current_filter (name : string) (s : App) :
  history_ok s -> history_ok (set_current_filter name s).
Proof. intros H. exact H. Qed.

Lemma history_ok_set_filter_intensity (v : Q) (s : App) :
  history_ok s -> history_ok (set_filter_intensity v s).
Proof. intros H. exact H. Qed.

Lemma and_then_ok (call : Ended) (rest : App -> Ended) :
  history_ok call -> (forall s, history_ok s -> history_ok (rest s)) ->
  history_ok (and_then call rest).
Proof.
  intros Hcall Hrest. unfold and_then.
  destruct (raised call); [exact Hcall | now apply Hrest].
Qed.

(** X1. [update_image] and the two filter handlers keep the history
    invariant: at most ten entries, and a cursor that is a valid index
    whenever there is an entry. *)
Theorem handlers_keep_history_invariant
    (px : Pillow) (numpy : bool) (self : App) (args : list string)
    (filter_name : string) :
  history_ok self ->
  history_ok (update_image px numpy self args) /\
  history_ok (ImageProcessorApp.apply_filter px numpy self filter_name) /\
  history_ok (ImageProcessorApp.reset_filter px numpy self).
Proof.
  intros Hok. split; [now apply update_image_ok |].
  unfold ImageProcessorApp.apply_filter, ImageProcessorApp.reset_filter.
  destruct (processed_image self); [| split; assumption].
  cbv zeta. split.
  - apply and_then_ok.
    + apply update_image_ok, history_ok_set_current_filter. exact Hok.
    + intros s Hs. cbn [state_of returns].
      now apply history_ok_set_status_bar, add_to_history_ok.
  - apply and_then_ok.
    + apply update_image_ok, history_ok_set_filter_intensity,
        history_ok_set_current_filter. exact Hok.
    + intros s Hs. cbn [state_of returns].
      now apply history_ok_set_status_bar, add_to_history_ok.
Qed.

Lemma loaded_app_ok (rs : np.RandomState) : history_ok (loaded_app rs).
Proof.
  unfold history_ok, loaded_app. cbn. repeat split; lia.
Qed.

Lemma handlers_keep_history_invariant_witness :
  history_ok (loaded_app (fun _ => 0%Q)) /\
  history_ok
    (ImageProcessorApp.apply_filter Plain.px true (loaded_app (fun _ => 0%Q))
       "invert").
Proof.
  split; [apply loaded_app_ok |].
  exact (proj1 (proj2 (handlers_keep_history_invariant Plain.px true
                         (loaded_app (fun _ => 0%Q)) [] "invert"
                         (loaded_app_ok _)))).
Defined.


Lemma forced_update_commits
    (px : Pillow) (numpy : bool) (self : App) (original : Image)
    (rest : list string) :
  original_image self = Some original ->
  String.eqb (current_filter self) "none" = false ->
  filter_raises (current_filter self) (filter_intensity self) = false ->
  exists img rs,
    apply_current_filter px numpy
      (set_current (brightness_slider self) (contrast_slider self)
         (saturation_slider self) (hue_slider self) self)
      (apply_adjustments
         (set_current (brightness_slider self) (contrast_slider self)
            (saturation_slider self) (hue_slider self) self) original)
      (current_filter self) (filter_intensity self) = (img, rs) /\
    update_image px numpy self ("force"%string :: rest)
    = returns
        (add_to_history
           (set_status_bar
              (AdjustmentSummary (brightness_slider self)
                 (contrast_slider self) (saturation_slider self)
                 (hue_slider self) (current_filter self))
              (set_processed_image (Some img)
                 (set_np_random rs
                    (set_current (brightness_slider self)
                       (contrast_slider self) (saturation_slider self)
                       (hue_slider self) self))))).
Proof.
  intros Horig Hfilter Hraise. unfold update_image. rewrite Horig.
  change (arg0_is_not ("force"%string :: rest) "force") with false.
  change (arg0_is ("force"%string :: rest) "force") with true.
  change (arg0_is_not ("force"%string :: rest) "history") with true.
  rewrite andb_false_r, !orb_true_r. cbn [negb andb].
  cbn [current_filter filter_intensity set_current].
  rewrite Hfilter, Hraise. cbn [negb].
  match goal with
  | |- context [apply_current_filter ?a ?b ?c ?d ?e ?f] =>
      destruct (apply_current_filter a b c d e f) as [img rs] eqn:E
  end.
  exists img, rs. split; reflexivity.
Qed.

(** A forced update with a rank filter of a size that Pillow refuses: the
    ValueError leaves [update_image] after the adjustment values have been
    stored and before anything else is written. *)
Lemma forced_update_raises
    (px : Pillow) (numpy : bool) (self : App) (original : Image)
    (rest : list string) :
  original_image self = Some original ->
  String.eqb (current_filter self) "none" = false ->
  filter_raises (current_filter self) (filter_intensity self) = true ->
  update_image px numpy self ("force"%string :: rest)
  = raises ValueError
      (set_current (brightness_slider self) (contrast_slider self)
         (saturation_slider self) (hue_slider self) self).
Proof.
  intros Horig Hfilter Hraise. unfold update_image. rewrite Horig.
  change (arg0_is_not ("force"%string :: rest) "force") with false.
  change (arg0_is ("force"%string :: rest) "force") with true.
  rewrite andb_false_r, !orb_true_r. cbn [negb andb].
  cbn [current_filter filter_intensity set_current].
  now rewrite Hfilter, Hraise.
Qed.





Lemma add_to_history_processed (s : App) :
  processed_image (add_to_history s) = processed_image s.
Proof.
  unfold add_to_history. destruct (processed_image s) eqn:E; [| exact E].
  repeat match goal with
  | |- context [if ?c then _ else _] => destruct c
  end; exact E.
Qed.

Lemma apply_current_filter_frame
    (px : Pillow) (numpy : bool) (s s' : App) (img : Image) (name : string)
    (intensity : Q) :
  current_brightness s' = current_brightness s ->
  current_contrast s' = current_contrast s ->
  np_random s' = np_random s ->
  apply_current_filter px numpy s' img name intensity
  = apply_current_filter px numpy s img name intensity.
Proof.
  intros Hb Hc Hr. unfold apply_current_filter. now rewrite Hb, Hc, Hr.
Qed.

Lemma apply_adjustments_frame (s s' : App) (img : Image) :
  current_brightness s' = current_brightness s ->
  current_contrast s' = current_contrast s ->
  current_saturation s' = current_saturation s ->
  current_hue s' = current_hue s ->
  apply_adjustments s' img = apply_adjustments s img.
Proof.
  intros Hb Hc Hs Hh. unfold apply_adjustments. now rewrite Hb, Hc, Hs, Hh.
Qed.

(** X3. A forced update recomputes the processed image from the original
    image: when a filter is selected, the image it commits does not depend
    on the processed image it replaces, so an edit that lives only there (a
    crop, a flip, a resize) is gone after it.  When the selected filter is
    left by Pillow's ValueError nothing is committed, and the processed
    image stays as it was.  The intensity is one of the slider. *)
Theorem forced_update_ignores_processed
    (px : Pillow) (numpy : bool) (self : App) (original : Image)
    (shown : option Image) (rest : list string) :
  original_image self = Some original ->
  String.eqb (current_filter self) "none" = false ->
  (1 # 10 <= filter_intensity self)%Q -> (filter_intensity self <= 2)%Q ->
  (filter_raises (current_filter self) (filter_intensity self) = false ->
   processed_image
     (update_image px numpy (set_processed_image shown self)
        ("force"%string :: rest))
   = processed_image (update_image px numpy self ("force"%string :: rest))) /\
  (filter_raises (current_filter self) (filter_intensity self) = true ->
   raised
     (update_image px numpy (set_processed_image shown self)
        ("force"%string :: rest)) = Some ValueError /\
   processed_image
     (update_image px numpy (set_processed_image shown self)
        ("force"%string :: rest)) = shown).
Proof.
  intros Horig Hfilter _ _. split; intros Hraise.
  - destruct (forced_update_commits px numpy self original rest Horig Hfilter
                Hraise)
      as (img & rs & Himg & Hupd).
    destruct (forced_update_commits px numpy (set_processed_image shown self)
                original rest Horig Hfilter Hraise)
      as (img' & rs' & Himg' & Hupd').
    rewrite Hupd, Hupd'. cbn [state_of returns].
    rewrite !add_to_history_processed.
    cbn [processed_image set_status_bar set_processed_image].
    assert (Hsame : (img', rs') = (img, rs)).
    { rewrite <- Himg, <- Himg'.
      rewrite (apply_adjustments_frame
                 (set_current (brightness_slider self) (contrast_slider self)
                    (saturation_slider self) (hue_slider self) self))
        by reflexivity.
      apply apply_current_filter_frame; reflexivity. }
    now inversion Hsame.
  - rewrite (forced_update_raises px numpy (set_processed_image shown self)
               original rest Horig Hfilter Hraise).
    split; reflexivity.
Qed.

Lemma forced_update_ignores_processed_witness :
  processed_image
    (update_image Plain.px true
       (set_processed_image (Some (grey_pixel 7))
          (set_current_filter "invert" (loaded_app (fun _ => 0%Q))))
       ["force"%string])
  = processed_image
      (update_image Plain.px true
         (set_current_filter "invert" (loaded_app (fun _ => 0%Q)))
         ["force"%string]) /\
  processed_image
    (update_image Plain.px true
       (set_processed_image (Some (grey_pixel 7))
          (set_filter_intensity (1 # 2)
             (set_current_filter "erosion" (loaded_app (fun _ => 0%Q)))))
       ["force"%string]) = Some (grey_pixel 7).
Proof.
  split.
  - exact (proj1 (forced_update_ignores_processed Plain.px true
                    (set_current_filter "invert" (loaded_app (fun _ => 0%Q)))
                    (grey_pixel 100) (Some (grey_pixel 7)) [] eq_refl eq_refl
                    ltac:(unfold Qle; cbn; lia) ltac:(unfold Qle; cbn; lia))
             eq_refl).
  - exact (proj2 (proj2 (forced_update_ignores_processed Plain.px true
                    (set_filter_intensity (1 # 2)
                       (set_current_filter "erosion"
                          (loaded_app (fun _ => 0%Q))))
                    (grey_pixel 100) (Some (grey_pixel 7)) [] eq_refl eq_refl
                    ltac:(unfold Qle; cbn; lia) ltac:(unfold Qle; cbn; lia))
             eq_refl)).
Defined.








(** ** Rasters: shape and range of what the adjustments return *)

Lemma zipWith_length {A B C} (f : A -> B -> C) (xs : list A) :
  forall ys, length (zipWith f xs ys) = Nat.min (length xs) (length ys).
Proof.
  induction xs as [| x xs IH]; intros [| y ys]; cbn [zipWith length];
    try reflexivity.
  now rewrite IH.
Qed.

Lemma zipWith_Forall {A B C} (P : C -> Prop) (f : A -> B -> C) (xs : list A) :
  (forall x y, P (f x y)) -> forall ys, Forall P (zipWith f xs ys).
Proof.
  intros Hf. induction xs as [| x xs IH]; intros [| y ys]; cbn [zipWith];
    constructor; auto.
Qed.

Lemma zipWith_snd {A B} (P : B -> Prop) (f : A -> B -> B) (xs : list A) :
  (forall x y, P y -> f x y = y) ->
  forall ys, length xs = length ys -> Forall P ys -> zipWith f xs ys = ys.
Proof.
  intros Hf. induction xs as [| x xs IH]; intros [| y ys] Hlen Hall;
    cbn [zipWith]; try reflexivity; try discriminate.
  inversion Hall; subst. cbn [length] in Hlen.
  rewrite Hf, IH by (assumption || lia). reflexivity.
Qed.

Lemma zipWith_fst {A B} (P : A -> Prop) (f : A -> B -> A) (xs : list A) :
  (forall x y, P x -> f x y = x) ->
  forall ys, length xs = length ys -> Forall P xs -> zipWith f xs ys = xs.
Proof.
  intros Hf. induction xs as [| x xs IH]; intros [| y ys] Hlen Hall;
    cbn [zipWith]; try reflexivity; try discriminate.
  inversion Hall; subst. cbn [length] in Hlen.
  rewrite Hf, IH by (assumption || lia). reflexivity.
Qed.

Lemma luma_plane_length (rs : list Z) :
  forall gs bs n,
  length rs = n -> length gs = n -> length bs = n ->
  length (PIL.luma_plane rs gs bs) = n.
Proof.
  induction rs as [| r rs IH]; intros [| g gs] [| b bs] n Hr Hg Hb;
    cbn [PIL.luma_plane length] in *; try lia.
  rewrite (IH gs bs (pred n)); lia.
Qed.

(** The three planes of a well-formed RGB image. *)
Lemma wf_RGB_planes (img : Image) :
  mode img = RGB -> wf_image img ->
  exists r g b,
    img = mkImage RGB (size img) [r; g; b] /\
    length r = npixels (size img) /\ length g = npixels (size img) /\
    length b = npixels (size img) /\
    Forall sample_ok r /\ Forall sample_ok g /\ Forall sample_ok b.
Proof.
  intros Hmode [Hb Hp Hs]. destruct img as [m sz bs].
  cbn [mode size bands] in *. subst m. cbn [nbands] in Hb.
  destruct bs as [| r [| g [| b [| ? ?]]]]; try discriminate.
  exists r, g, b.
  inversion Hp as [| ? ? Hr Hp1]; subst.
  inversion Hp1 as [| ? ? Hg Hp2]; subst.
  inversion Hp2 as [| ? ? Hbl _]; subst.
  inversion Hs as [| ? ? Sr Hs1]; subst.
  inversion Hs1 as [| ? ? Sg Hs2]; subst.
  inversion Hs2 as [| ? ? Sb _]; subst.
  repeat split; assumption.
Qed.

Lemma wf_RGB_intro (sz : Z * Z) (r g b : list Z) :
  length r = npixels sz -> length g = npixels sz -> length b = npixels sz ->
  Forall sample_ok r -> Forall sample_ok g -> Forall sample_ok b ->
  wf_image (mkImage RGB sz [r; g; b]).
Proof.
  intros. constructor; cbn [mode size bands nbands]; auto.
Qed.

(** X7. Saturation 1.0 returns the image itself, and saturation 0.0 returns
    its grey version: the three channels of every pixel are its luma. *)
Theorem adjust_saturation_one_and_zero (img : Image) :
  mode img = RGB -> wf_image img ->
  adjust_saturation img 1 = img /\
  adjust_saturation img 0 = PIL.convert RGB (PIL.convert L img).
Proof.
  intros Hmode Hwf.
  assert (E1 : IEEE.binary32 1 = 1%Q) by (vm_compute; reflexivity).
  assert (E0 : IEEE.binary32 0 = 0%Q) by (vm_compute; reflexivity).
  unfold adjust_saturation, PIL.Color_enhance, PIL.blend. cbv zeta.
  rewrite E1, E0, Hmode.
  change (Qeq_bool 1 0) with false. change (Qeq_bool 1 1) with true.
  change (Qeq_bool 0 0) with true. cbv iota.
  split; [| reflexivity].
  unfold PIL.convert at 1. cbn [mode]. unfold PIL.convert at 1. rewrite Hmode.
  cbn [mode size]. destruct img as [m sz bs]. cbn [mode size bands] in *.
  now subst m.
Qed.

Lemma adjust_saturation_one_and_zero_witness :
  mode (centre_dot 90) = RGB /\ wf_image (centre_dot 90) /\
  adjust_saturation (centre_dot 90) 1 = centre_dot 90 /\
  adjust_saturation (centre_dot 90) 0
  = PIL.convert RGB (PIL.convert L (centre_dot 90)).
Proof.
  assert (Hwf : wf_image (centre_dot 90)).
  { apply wf_RGB_intro; try reflexivity;
      repeat (apply Forall_cons; [unfold sample_ok; lia |]);
      apply Forall_nil. }
  split; [reflexivity | split; [exact Hwf |]].
  exact (adjust_saturation_one_and_zero (centre_dot 90) eq_refl Hwf).
Defined.

(** ** Hue *)

Local Open Scope Q_scope.

(** The float tests of [adjust_hue] on an integer residue. *)
Lemma hue_bucket (m k : Z) :
  (0 <= m)%Z ->
  IEEE.binary64 (inject_Z (k - 1) / 360) < IEEE.binary64 (inject_Z k / 360) ->
  Qltb (fdiv (inject_Z m) 360) (IEEE.binary64 (inject_Z k / 360))
  = (m <? k)%Z.
Proof.
  intros Hm Hgap. unfold Qltb, fdiv.
  destruct (Z.ltb_spec m k) as [Hlt | Hge].
  - apply negb_true_iff. apply not_true_iff_false. intros Hle.
    apply Qle_bool_iff in Hle.
    assert (Hq : inject_Z m / 360 <= inject_Z (k - 1) / 360).
    { apply Qmult_le_compat_r; [| discriminate].
      rewrite <- Zle_Qle. lia. }
    apply binary64_le in Hq. lra.
  - apply negb_false_iff. apply Qle_bool_iff. apply binary64_le.
    apply Qmult_le_compat_r; [| discriminate].
    rewrite <- Zle_Qle. exact Hge.
Qed.

Local Close Scope Q_scope.

Lemma adjust_hue_cases (sz : Z * Z) (r g b : list Z) (shift : Z) :
  adjust_hue (mkImage RGB sz [r; g; b]) shift
  = if shift mod 360 <? 120 then mkImage RGB sz [b; r; g]
    else if shift mod 360 <? 240 then mkImage RGB sz [g; b; r]
    else mkImage RGB sz [r; g; b].
Proof.
  unfold adjust_hue, ensure_RGB. cbn [mode Mode_eqb negb].
  pose proof (Z.mod_pos_bound shift 360 ltac:(lia)) as Hmod.
  assert (H1 : fdiv 1 3 = IEEE.binary64 (inject_Z 120 / 360))
    by (apply binary64_comp; reflexivity).
  assert (H2 : fdiv 2 3 = IEEE.binary64 (inject_Z 240 / 360))
    by (apply binary64_comp; reflexivity).
  rewrite H1, H2.
  rewrite (hue_bucket (shift mod 360) 120)
    by (lia || (vm_compute; reflexivity)).
  rewrite (hue_bucket (shift mod 360) 240)
    by (lia || (vm_compute; reflexivity)).
  destruct (shift mod 360 <? 120); [reflexivity |].
  destruct (shift mod 360 <? 240); reflexivity.
Qed.

(** X6. [adjust_hue] rotates the channels of an RGB image and knows three
    cases only.  A shift whose residue modulo 360 is below 120 (0 and 360
    among them) turns (r, g, b) into (b, r, g), and applied three times it
    gives the image back; a shift with residue from 120 to 239 undoes it;
    a shift with residue 240 or more leaves the image as it is. *)
Theorem adjust_hue_is_channel_rotation (img : Image) (s1 s2 s3 : Z) :
  mode img = RGB -> length (bands img) = 3%nat ->
  s1 mod 360 < 120 ->
  120 <= s2 mod 360 < 240 ->
  240 <= s3 mod 360 ->
  adjust_hue (adjust_hue (adjust_hue img s1) s1) s1 = img /\
  adjust_hue (adjust_hue img s1) s2 = img /\
  adjust_hue (adjust_hue img s2) s1 = img /\
  adjust_hue img s3 = img /\
  bands (adjust_hue img s1)
  = [nth 2 (bands img) []; nth 0 (bands img) []; nth 1 (bands img) []].
Proof.
  intros Hmode Hlen H1 H2 H3.
  destruct img as [m sz bs]. cbn [mode bands] in *. subst m.
  destruct bs as [| r [| g [| b [| ? ?]]]]; try discriminate.
  assert (E1 : (s1 mod 360 <? 120) = true) by (apply Z.ltb_lt; lia).
  assert (E2 : (s2 mod 360 <? 120) = false) by (apply Z.ltb_ge; lia).
  assert (E2' : (s2 mod 360 <? 240) = true) by (apply Z.ltb_lt; lia).
  assert (E3 : (s3 mod 360 <? 120) = false) by (apply Z.ltb_ge; lia).
  assert (E3' : (s3 mod 360 <? 240) = false) by (apply Z.ltb_ge; lia).
  repeat split;
    repeat (rewrite adjust_hue_cases;
            rewrite ?E1, ?E2, ?E2', ?E3, ?E3'; cbv iota);
    reflexivity.
Qed.

Lemma adjust_hue_is_channel_rotation_witness :
  adjust_hue (mkImage RGB (1, 1) [[10]; [20]; [30]]) 360
  = mkImage RGB (1, 1) [[30]; [10]; [20]] /\
  adjust_hue (adjust_hue (mkImage RGB (1, 1) [[10]; [20]; [30]]) 360) 180
  = mkImage RGB (1, 1) [[10]; [20]; [30]] /\
  adjust_hue (mkImage RGB (1, 1) [[10]; [20]; [30]]) 300
  = mkImage RGB (1, 1) [[10]; [20]; [30]].
Proof.
  destruct (adjust_hue_is_channel_rotation
              (mkImage RGB (1, 1) [[10]; [20]; [30]]) 360 180 300
              eq_refl eq_refl ltac:(vm_compute; reflexivity)
              ltac:(vm_compute; split; [discriminate | reflexivity])
              ltac:(vm_compute; discriminate))
    as (_ & H2 & _ & H4 & _).
  split; [| split; [exact H2 | exact H4]].
  rewrite adjust_hue_cases. reflexivity.
Defined.

(** ** Brightness and contrast: shape, range and the extreme setting *)

Lemma wf_ensure_RGB (img : Image) :
  wf_image img ->
  wf_image (ensure_RGB img) /\ mode (ensure_RGB img) = RGB /\
  size (ensure_RGB img) = size img.
Proof.
  intros Hwf. unfold ensure_RGB. destruct (mode img) eqn:Hmode.
  - cbn [Mode_eqb negb]. unfold PIL.convert. rewrite Hmode.
    destruct Hwf as [Hb Hp Hs]. rewrite Hmode in Hb. cbn [nbands] in Hb.
    destruct (bands img) as [| y [| ? ?]]; try discriminate.
    inversion Hp; inversion Hs; subst. cbn [nth].
    repeat split; cbn [mode size bands nbands]; auto.
  - cbn [Mode_eqb negb]. auto.
Qed.

Lemma adjust_brightness_contrast_as_points
    (img : Image) (brightness contrast : Q) :
  mode img = RGB -> wf_image img ->
  let brightened :=
    PIL.point
      (PIL.blend_sample (IEEE.binary32 (fadd 1 (fdiv brightness 100))) 0)
      img in
  adjust_brightness_contrast img brightness contrast
  = PIL.point
      (PIL.blend_sample (IEEE.binary32 contrast)
         (PIL.Contrast_mean brightened))
      brightened.
Proof.
  intros Hmode Hwf brightened.
  assert (Hwfb : wf_image brightened).
  { apply wf_point; [| assumption]. intros v. apply blend_sample_range. }
  assert (Hmodeb : mode brightened = RGB) by exact Hmode.
  unfold adjust_brightness_contrast, ensure_RGB. rewrite Hmode.
  cbn [Mode_eqb negb].
  assert (Hstep1 :
    (if Qneqb brightness 0
     then PIL.Brightness_enhance img (fadd 1 (fdiv brightness 100))
     else img) = brightened).
  { destruct (Qneqb brightness 0) eqn:Eb.
    - now apply Brightness_enhance_point.
    - symmetry. apply point_id; [| assumption].
      intros v Hv. apply blend_sample_one; try assumption.
      + apply Qneqb_false in Eb. rewrite Eb. vm_compute. reflexivity.
      + unfold sample_ok. lia. }
  rewrite Hstep1.
  destruct (Qneqb contrast 1) eqn:Ec.
  - now apply Contrast_enhance_point.
  - symmetry. apply point_id; [| assumption].
    intros v Hv. apply blend_sample_one; try assumption.
    + apply Qneqb_false in Ec. rewrite Ec. vm_compute. reflexivity.
    + now apply Contrast_mean_range.
Qed.

Lemma wf_adjust_brightness_contrast
    (img : Image) (brightness contrast : Q) :
  mode img = RGB -> wf_image img ->
  wf_image (adjust_brightness_contrast img brightness contrast) /\
  mode (adjust_brightness_contrast img brightness contrast) = RGB /\
  size (adjust_brightness_contrast img brightness contrast) = size img.
Proof.
  intros Hmode Hwf.
  rewrite adjust_brightness_contrast_as_points by assumption.
  split; [| split; [exact Hmode | reflexivity]].
  apply wf_point; [intros v; apply blend_sample_range |].
  apply wf_point; [intros v; apply blend_sample_range | exact Hwf].
Qed.

(** X8. Whatever the brightness and the contrast, and whatever the mode of
    the image it is given, [adjust_brightness_contrast] returns an RGB
    image of the same size whose samples all lie in [0,255]. *)
Theorem adjust_brightness_contrast_keeps_shape
    (img : Image) (brightness contrast : Q) :
  wf_image img ->
  wf_image (adjust_brightness_contrast img brightness contrast) /\
  mode (adjust_brightness_contrast img brightness contrast) = RGB /\
  size (adjust_brightness_contrast img brightness contrast) = size img.
Proof.
  intros Hwf.
  destruct (wf_ensure_RGB img Hwf) as (Hwf' & Hmode' & Hsize').
  assert (E : adjust_brightness_contrast img brightness contrast
              = adjust_brightness_contrast (ensure_RGB img) brightness
                  contrast).
  { assert (Hidem : ensure_RGB (ensure_RGB img) = ensure_RGB img).
    { unfold ensure_RGB at 1. now rewrite Hmode'. }
    unfold adjust_brightness_contrast. now rewrite Hidem. }
  rewrite E.
  destruct (wf_adjust_brightness_contrast (ensure_RGB img) brightness
              contrast Hmode' Hwf') as (H1 & H2 & H3).
  split; [exact H1 | split; [exact H2 | congruence]].
Qed.

Lemma adjust_brightness_contrast_keeps_shape_witness :
  wf_image (PIL.new L (2, 1) [40]) /\
  mode (adjust_brightness_contrast (PIL.new L (2, 1) [40]) 150 3) = RGB /\
  size (adjust_brightness_contrast (PIL.new L (2, 1) [40]) 150 3) = (2, 1).
Proof.
  assert (Hwf : wf_image (PIL.new L (2, 1) [40])).
  { constructor; cbn.
    - reflexivity.
    - repeat constructor.
    - repeat constructor; unfold sample_ok; lia. }
  split; [exact Hwf |].
  exact (proj2 (adjust_brightness_contrast_keeps_shape
                  (PIL.new L (2, 1) [40]) 150 3 Hwf)).
Defined.

Local Open Scope Q_scope.

(** A blend with black at a factor that is not positive gives black. *)
Lemma blend_sample_nonpositive (a : Q) (v : Z) :
  a <= 0 -> sample_ok v -> PIL.blend_sample a 0 v = 0%Z.
Proof.
  intros Ha Hv.
  rewrite blend_sample_clip8 by (assumption || (unfold sample_ok; lia)).
  pose proof (inject_sample v Hv) as [V0 V1].
  change (inject_Z 0) with 0.
  assert (Hp : IEEE.binary32 (a * (inject_Z v - 0)) <= 0).
  { apply round_nonpos. nra. }
  assert (Ht : IEEE.binary32 (0 + IEEE.binary32 (a * (inject_Z v - 0))) <= 0).
  { apply round_nonpos. lra. }
  unfold PIL.clip8. apply Qle_bool_iff in Ht. now rewrite Ht.
Qed.

Lemma blend_sample_black (a : Q) : PIL.blend_sample a 0 0 = 0%Z.
Proof.
  rewrite blend_sample_clip8 by (unfold sample_ok; lia).
  rewrite (clip8_comp _ 0); [reflexivity |].
  change (inject_Z 0) with 0.
  assert (H1 : a * (0 - 0) == 0) by ring.
  rewrite H1.
  assert (E : IEEE.binary32 0 == 0) by (vm_compute; reflexivity).
  rewrite E.
  assert (H2 : 0 + 0 == 0) by ring.
  now rewrite H2.
Qed.

Lemma brightness_factor_nonpositive (brightness : Q) :
  brightness <= -100 -> IEEE.binary32 (fadd 1 (fdiv brightness 100)) <= 0.
Proof.
  intros Hb. apply round_nonpos. unfold fadd. apply round_nonpos.
  unfold fdiv.
  assert (Hq : brightness / 100 <= inject_Z (-1)).
  { apply Qle_shift_div_r; [reflexivity |].
    change (inject_Z (-1) * 100) with (-100). exact Hb. }
  assert (H1 : IEEE.binary64 (brightness / 100) <= inject_Z (-1)).
  { rewrite <- (binary64_Z (-1)) by (cbn; lia). now apply binary64_le. }
  change (inject_Z (-1)) with (-1) in H1. lra.
Qed.

Local Close Scope Q_scope.

Lemma point_const_zero (img : Image) (f : Z -> Z) :
  mode img = RGB -> wf_image img ->
  (forall v, sample_ok v -> f v = 0) ->
  PIL.point f img = PIL.new RGB (size img) [0; 0; 0].
Proof.
  intros Hmode Hwf Hf.
  destruct (wf_RGB_planes img Hmode Hwf)
    as (r & g & b & Himg & Hr & Hg & Hb & Sr & Sg & Sb).
  set (sz := size img) in *. clearbody sz. subst img.
  unfold PIL.point, PIL.new. cbn [mode size bands map firstn nbands].
  assert (Hplane : forall p, length p = npixels sz -> Forall sample_ok p ->
                             map f p = repeat 0 (npixels sz)).
  { intros p Hlen Hall. rewrite <- Hlen. clear Hlen.
    induction Hall as [| v p Hv _ IH]; cbn [map length repeat];
      [reflexivity |].
    now rewrite IH, Hf. }
  now rewrite !Hplane.
Qed.

Lemma luma_plane_zero (n : nat) :
  PIL.luma_plane (repeat 0 n) (repeat 0 n) (repeat 0 n) = repeat 0 n.
Proof.
  induction n as [| n IH]; cbn [repeat PIL.luma_plane]; [reflexivity |].
  now rewrite IH.
Qed.

Lemma sum_zero (n : nat) : fold_right Z.add 0 (repeat 0 n) = 0.
Proof. induction n as [| n IH]; cbn [repeat fold_right]; lia. Qed.

Lemma Contrast_mean_black (sz : Z * Z) :
  PIL.Contrast_mean (PIL.new RGB sz [0; 0; 0]) = 0.
Proof.
  unfold PIL.Contrast_mean, PIL.mean0, PIL.convert, PIL.new.
  cbn [mode size bands nbands firstn map nth].
  rewrite luma_plane_zero, sum_zero. unfold fdiv.
  rewrite (binary64_comp (inject_Z 0 / _) 0).
  - vm_compute. reflexivity.
  - unfold Qdiv. change (inject_Z 0) with 0%Q. ring.
Qed.

(** X9. At brightness -100 or below the result is the black image of the
    same size, for every contrast: the brightness factor is zero or
    negative, and the contrast step pivots on the mean of a black image. *)
Theorem brightness_floor_is_black
    (img : Image) (brightness contrast : Q) :
  mode img = RGB -> wf_image img -> (0 < npixels (size img))%nat ->
  (brightness <= -100)%Q ->
  adjust_brightness_contrast img brightness contrast
  = PIL.new RGB (size img) [0; 0; 0].
Proof.
  intros Hmode Hwf _ Hb.
  rewrite adjust_brightness_contrast_as_points by assumption. cbv zeta.
  assert (Hblack :
    PIL.point
      (PIL.blend_sample (IEEE.binary32 (fadd 1 (fdiv brightness 100))) 0) img
    = PIL.new RGB (size img) [0; 0; 0]).
  { apply point_const_zero; try assumption.
    intros v Hv. apply blend_sample_nonpositive; [| exact Hv].
    now apply brightness_factor_nonpositive. }
  rewrite Hblack, Contrast_mean_black.
  unfold PIL.point, PIL.new. cbn [mode size bands nbands firstn map].
  now rewrite !map_repeat, blend_sample_black.
Qed.

Lemma brightness_floor_is_black_witness :
  mode (centre_dot 90) = RGB /\ wf_image (centre_dot 90) /\
  (0 < npixels (size (centre_dot 90)))%nat /\ (-100 <= -100)%Q /\
  adjust_brightness_contrast (centre_dot 90) (-100) 2
  = PIL.new RGB (3, 3) [0; 0; 0].
Proof.
  assert (Hwf : wf_image (centre_dot 90)).
  { apply wf_RGB_intro; try reflexivity;
      repeat (apply Forall_cons; [unfold sample_ok; lia |]);
      apply Forall_nil. }
  assert (Hpx : (0 < npixels (size (centre_dot 90)))%nat) by (cbn; lia).
  assert (Hb : (-100 <= -100)%Q) by (unfold Qle; cbn; lia).
  split; [reflexivity | split; [exact Hwf | split; [exact Hpx |]]].
  split; [exact Hb |].
  exact (brightness_floor_is_black (centre_dot 90) (-100) 2 eq_refl Hwf Hpx Hb).
Defined.

(** ** The NumPy variant at its default parameters *)

Local Open Scope Q_scope.

Lemma numpy_value_default (v : Z) :
  sample_ok v ->
  fadd (fmul (fsub (fadd (inject_Z v) (fmul 0 (float_of (255 # 100)))) 128)
          1) 128 == inject_Z v.
Proof.
  intros Hv. unfold sample_ok in Hv.
  assert (E0 : fmul 0 (float_of (255 # 100)) = 0) by (vm_compute; reflexivity).
  rewrite E0.
  assert (E1 : fadd (inject_Z v) 0 == inject_Z v).
  { unfold fadd. rewrite (binary64_comp _ (inject_Z v)) by ring.
    apply binary64_Z. lia. }
  rewrite E1.
  assert (E2 : fsub (inject_Z v) 128 == inject_Z (v - 128)).
  { unfold fsub. rewrite (binary64_comp _ (inject_Z (v - 128))).
    - apply binary64_Z. lia.
    - unfold Z.sub. rewrite inject_Z_plus, inject_Z_opp. reflexivity. }
  rewrite E2.
  assert (E3 : fmul (inject_Z (v - 128)) 1 == inject_Z (v - 128)).
  { unfold fmul. rewrite (binary64_comp _ (inject_Z (v - 128))) by ring.
    apply binary64_Z. lia. }
  rewrite E3.
  unfold fadd. rewrite (binary64_comp _ (inject_Z v)).
  - apply binary64_Z. lia.
  - unfold Z.sub. rewrite inject_Z_plus, inject_Z_opp.
    change (inject_Z 128) with 128. ring.
Qed.

Lemma numpy_sample_default (v : Z) :
  sample_ok v -> numpy_sample 0 1 v = v.
Proof.
  intros Hv. pose proof (inject_sample v Hv) as [H0 H255].
  pose proof (numpy_value_default v Hv) as Hx.
  unfold numpy_sample.
  set (x := fadd (fmul (fsub (fadd (inject_Z v)
                                (fmul 0 (float_of (255 # 100)))) 128) 1)
              128) in *.
  unfold np.clip1, py_maxQ, py_minQ, Qltb.
  assert (C1 : Qle_bool 0 x = true) by (apply Qle_bool_iff; lra).
  rewrite C1. cbn [negb].
  assert (C2 : Qle_bool x 255 = true) by (apply Qle_bool_iff; lra).
  rewrite C2. cbn [negb].
  unfold sample_ok in Hv.
  unfold np.to_uint8. rewrite (py_int_of_Z x v) by (lia || assumption).
  apply Z.mod_small. lia.
Qed.

Local Close Scope Q_scope.

(** X10. With NumPy available, [adjust_brightness_contrast_numpy] at
    brightness 0 and contrast 1.0 returns the image it was given, for an L
    and for an RGB image alike. *)
Theorem adjust_brightness_contrast_numpy_default_identity (img : Image) :
  wf_image img ->
  adjust_brightness_contrast_numpy true img 0 1 = img.
Proof.
  intros [Hb Hp Hs]. rewrite adjust_brightness_contrast_numpy_planes.
  assert (Hplanes : map (map (numpy_sample 0 1)) (bands img) = bands img).
  { rewrite (map_map_ext_Forall sample_ok _ (fun v => v)).
    - rewrite <- (map_id (bands img)) at 2. apply map_ext. intros p.
      apply map_id.
    - intros v Hv. now apply numpy_sample_default.
    - exact Hs. }
  rewrite Hplanes. destruct img as [m sz bs]. cbn [mode size bands] in *.
  f_equal. destruct m; cbn [nbands] in Hb.
  - destruct bs as [| ? [| ? ?]]; try discriminate. reflexivity.
  - destruct bs as [| ? [| ? [| ? [| ? ?]]]]; try discriminate. reflexivity.
Qed.

Lemma adjust_brightness_contrast_numpy_default_identity_witness :
  wf_image (centre_dot 90) /\
  adjust_brightness_contrast_numpy true (centre_dot 90) 0 1 = centre_dot 90.
Proof.
  assert (Hwf : wf_image (centre_dot 90)).
  { apply wf_RGB_intro; try reflexivity;
      repeat (apply Forall_cons; [unfold sample_ok; lia |]);
      apply Forall_nil. }
  split; [exact Hwf |].
  exact (adjust_brightness_contrast_numpy_default_identity _ Hwf).
Defined.

(** ** The pencil sketch *)

Lemma size_ensure_RGB (img : Image) : size (ensure_RGB img) = size img.
Proof.
  unfold ensure_RGB, PIL.convert. destruct (mode img); reflexivity.
Qed.

(** X11. Whatever the Pillow backend, the intensity and the noise, the
    pencil sketch is an RGB image of the size of its input whose three
    channels are equal: a grey image. *)
Theorem pencil_sketch_is_grey
    (px : Pillow) (numpy : bool) (img : Image) (intensity : Q)
    (rs : np.RandomState) :
  mode (fst (apply_pencil_sketch px numpy img intensity rs)) = RGB /\
  size (fst (apply_pencil_sketch px numpy img intensity rs)) = size img /\
  exists y,
    bands (fst (apply_pencil_sketch px numpy img intensity rs)) = [y; y; y].
Proof.
  destruct (apply_pencil_sketch_unfold px img intensity)
    as (sketch & Hmode & Hsize & Hclean & Hnoisy).
  rewrite size_ensure_RGB in Hsize.
  destruct numpy.
  - rewrite (Hnoisy rs). cbv zeta. cbn [fst mode size bands]. eauto.
  - rewrite (Hclean rs). cbn [fst mode size bands]. eauto.
Qed.

(** ** Geometry *)

(** X12. [crop_image] never hands Pillow a box that leaves the image or is
    empty: either it returns the image it was given, or it crops to a box
    with 0 <= left < right <= width and 0 <= top < bottom <= height.  A box
    that already satisfies these bounds is passed on as it is. *)
Theorem crop_box_within_image
    (px : Pillow) (image : Image) (left top right bottom : Z) :
  0 <= fst (size image) -> 0 <= snd (size image) ->
  (crop_image px image left top right bottom = Ok image \/
   exists l t r b,
     crop_image px image left top right bottom
     = Ok (crop px image (l, t, r, b)) /\
     0 <= l < r /\ r <= fst (size image) /\
     0 <= t < b /\ b <= snd (size image)) /\
  (0 <= left < right -> right <= fst (size image) ->
   0 <= top < bottom -> bottom <= snd (size image) ->
   crop_image px image left top right bottom
   = Ok (crop px image (left, top, right, bottom))).
Proof.
  intros Hw Hh. unfold crop_image.
  destruct (size image) as [w h]. cbn [fst snd] in *.
  split.
  - destruct (Z.leb_spec (Z.max 0 (Z.min right w)) (Z.max 0 (Z.min left w)));
      [now left |].
    destruct (Z.leb_spec (Z.max 0 (Z.min bottom h)) (Z.max 0 (Z.min top h)));
      [now left |].
    right. cbn [orb].
    exists (Z.max 0 (Z.min left w)), (Z.max 0 (Z.min top h)),
           (Z.max 0 (Z.min right w)), (Z.max 0 (Z.min bottom h)).
    repeat split; lia.
  - intros Hl Hr Ht Hb.
    replace (Z.max 0 (Z.min left w)) with left by lia.
    replace (Z.max 0 (Z.min right w)) with right by lia.
    replace (Z.max 0 (Z.min top h)) with top by lia.
    replace (Z.max 0 (Z.min bottom h)) with bottom by lia.
    destruct (Z.leb_spec right left); [lia |].
    destruct (Z.leb_spec bottom top); [lia | reflexivity].
Qed.

Lemma crop_box_within_image_witness :
  crop_image Plain.px (centre_dot 9) 1 1 2 2
  = Ok (crop Plain.px (centre_dot 9) (1, 1, 2, 2)).
Proof.
  apply (proj2 (crop_box_within_image Plain.px (centre_dot 9) 1 1 2 2
                  ltac:(cbn; lia) ltac:(cbn; lia))); cbn; lia.
Defined.

Local Open Scope Q_scope.

Lemma binary64_rel_error (x : Q) :
  IEEE.pow2 (-1022) <= x ->
  x * (1 - (1 # 9007199254740992)) <= IEEE.binary64 x /\
  IEEE.binary64 x <= x * (1 + (1 # 9007199254740992)).
Proof.
  intros Hx.
  pose proof (round_rel_error 53 (-1074) x Hx) as H.
  eval_pow2. exact H.
Qed.

Lemma inject_Z_pos (n : Z) : (0 < n)%Z -> 0 < inject_Z n.
Proof. intros H. change 0 with (inject_Z 0). now rewrite <- Zlt_Qlt. Qed.

Lemma inject_Z_nonneg (n : Z) : (0 <= n)%Z -> 0 <= inject_Z n.
Proof. intros H. change 0 with (inject_Z 0). now rewrite <- Zle_Qle. Qed.

Lemma inject_Z_lt_2_31 (n : Z) : (n < 2 ^ 31)%Z -> inject_Z n < 2147483648.
Proof.
  intros H. change 2147483648 with (inject_Z 2147483648).
  rewrite <- Zlt_Qlt. exact H.
Qed.

Lemma py_int_bounds (x : Q) (n : Z) :
  0 <= x -> x < inject_Z n + 1 -> (0 <= py_int x <= n)%Z.
Proof.
  intros H0 H1. rewrite py_int_nonneg by assumption. split.
  - change 0%Z with (Qfloor 0). now apply Qfloor_resp_le.
  - pose proof (Qfloor_le x) as Hfl.
    assert (Hz : inject_Z (Qfloor x) < inject_Z (n + 1)).
    { rewrite inject_Z_plus. change (inject_Z 1) with 1. lra. }
    rewrite <- Zlt_Qlt in Hz. lia.
Qed.

(** A size scaled by a ratio that is at most the float quotient
    [target / size] is, once truncated, at most [target]: the two roundings
    move the product by less than one. *)
Lemma scaled_size_fits (original target : Z) (ratio : Q) :
  (0 < original < 2 ^ 31)%Z -> (0 < target < 2 ^ 31)%Z ->
  0 <= ratio -> ratio <= fdiv (inject_Z target) (inject_Z original) ->
  (0 <= py_int (fmul (float_of (inject_Z original)) ratio) <= target)%Z.
Proof.
  intros Ho Ht Hr0 Hr1.
  pose proof (inject_Z_pos original ltac:(lia)) as Hopos.
  pose proof (inject_Z_pos target ltac:(lia)) as Htpos.
  pose proof (inject_Z_lt_2_31 original ltac:(lia)) as Hobig.
  pose proof (inject_Z_lt_2_31 target ltac:(lia)) as Htbig.
  assert (Ho1 : 1 <= inject_Z original).
  { change 1 with (inject_Z 1). rewrite <- Zle_Qle. lia. }
  assert (Ht1 : 1 <= inject_Z target).
  { change 1 with (inject_Z 1). rewrite <- Zle_Qle. lia. }
  set (o := inject_Z original) in *. set (t := inject_Z target) in *.
  assert (Hfo : float_of o == o).
  { unfold float_of, o. apply binary64_Z. lia. }
  assert (Hsmall : IEEE.pow2 (-1022) <= 1 # 2147483648)
    by (vm_compute; discriminate).
  assert (Hq : (1 # 2147483648) <= t / o).
  { apply Qle_shift_div_l; [exact Hopos |]. lra. }
  unfold fdiv in Hr1.
  destruct (binary64_rel_error (t / o) ltac:(lra)) as [_ Q1].
  assert (Hprod : o * ratio <= t * (1 + (1 # 9007199254740992))).
  { assert (E : t * (1 + (1 # 9007199254740992))
                == o * (t / o * (1 + (1 # 9007199254740992))))
      by (field; lra).
    rewrite E. apply Qmult_le_l; [exact Hopos | lra]. }
  assert (Hprod0 : 0 <= o * ratio) by nra.
  unfold fmul. rewrite (binary64_comp _ (o * ratio)) by now rewrite Hfo.
  assert (Hup : IEEE.binary64 (o * ratio)
                <= IEEE.binary64 (t * (1 + (1 # 9007199254740992))))
    by now apply binary64_le.
  destruct (binary64_rel_error (t * (1 + (1 # 9007199254740992)))
              ltac:(lra)) as [_ R1].
  apply py_int_bounds.
  - now apply round_nonneg.
  - fold t. lra.
Qed.

Lemma py_minQ_le (a b : Q) : py_minQ a b <= a /\ py_minQ a b <= b.
Proof.
  unfold py_minQ, Qltb. destruct (Qle_bool a b) eqn:E; cbn [negb].
  - apply Qle_bool_iff in E. split; lra.
  - assert (H : ~ a <= b) by (rewrite <- Qle_bool_iff; congruence).
    split; lra.
Qed.

Lemma py_minQ_nonneg (a b : Q) : 0 <= a -> 0 <= b -> 0 <= py_minQ a b.
Proof.
  intros Ha Hb. unfold py_minQ. now destruct (Qltb b a).
Qed.

Lemma fdiv_nonneg (a b : Z) :
  (0 <= a)%Z -> (0 < b)%Z -> 0 <= fdiv (inject_Z a) (inject_Z b).
Proof.
  intros Ha Hb. unfold fdiv. apply round_nonneg.
  apply Qle_shift_div_l; [now apply inject_Z_pos |].
  rewrite Qmult_0_l. now apply inject_Z_nonneg.
Qed.

Local Close Scope Q_scope.

(** X13. An aspect-preserving resize to a positive box never asks Pillow
    for more than the box: the requested width is at most [width] and the
    requested height at most [height], the quotients and the products
    being those of floats.  Sizes are below 2^31, as Pillow has them.  On
    an image whose width or height is 0 the function raises
    ZeroDivisionError. *)
Theorem resize_keep_aspect_fits_box
    (px : Pillow) (image : Image) (width height : Z) :
  0 < width < 2 ^ 31 -> 0 < height < 2 ^ 31 ->
  0 <= fst (size image) < 2 ^ 31 -> 0 <= snd (size image) < 2 ^ 31 ->
  (fst (size image) = 0 \/ snd (size image) = 0 ->
   resize_image px image width height true = Raise ZeroDivisionError) /\
  (0 < fst (size image) -> 0 < snd (size image) ->
   exists new_width new_height,
     resize_image px image width height true
     = resize px image (new_width, new_height) /\
     0 <= new_width <= width /\ 0 <= new_height <= height).
Proof.
  intros Hw Hh How Hoh. unfold resize_image.
  destruct (size image) as [ow oh]. cbn [fst snd] in *.
  destruct (Z.leb_spec width 0); [lia |].
  destruct (Z.leb_spec height 0); [lia |]. cbn [orb].
  split.
  - intros [-> | ->]; [reflexivity |].
    now rewrite orb_true_r.
  - intros Hopos Hhpos.
    destruct (Z.eqb_spec ow 0); [lia |].
    destruct (Z.eqb_spec oh 0); [lia |]. cbn [orb].
    eexists. eexists. split; [reflexivity |].
    set (ratio := py_minQ (fdiv (inject_Z width) (inject_Z ow))
                          (fdiv (inject_Z height) (inject_Z oh))).
    assert (Hr0 : (0 <= ratio)%Q).
    { apply py_minQ_nonneg; apply fdiv_nonneg; lia. }
    destruct (py_minQ_le (fdiv (inject_Z width) (inject_Z ow))
                (fdiv (inject_Z height) (inject_Z oh))) as [Hrw Hrh].
    fold ratio in Hrw, Hrh.
    split; apply scaled_size_fits; (lia || assumption).
Qed.

Lemma resize_keep_aspect_fits_box_witness :
  exists new_width new_height,
    resize_image Plain.px (PIL.new RGB (11, 1) [0; 0; 0]) 15 100 true
    = resize Plain.px (PIL.new RGB (11, 1) [0; 0; 0])
        (new_width, new_height) /\
    0 <= new_width <= 15 /\ 0 <= new_height <= 100.
Proof.
  apply (proj2 (resize_keep_aspect_fits_box Plain.px
                  (PIL.new RGB (11, 1) [0; 0; 0]) 15 100
                  ltac:(cbn; lia) ltac:(cbn; lia)
                  ltac:(cbn; lia) ltac:(cbn; lia))).
  - cbn. lia.
  - cbn. lia.
Defined.

Local Open Scope Q_scope.

Lemma percentage_product (original : Z) (percentage : Q) :
  (0 <= original < 2 ^ 31)%Z ->
  fmul (float_of (inject_Z original)) percentage
  = IEEE.binary64 (inject_Z original * percentage).
Proof.
  intros Ho. unfold fmul. apply binary64_comp.
  unfold float_of. rewrite binary64_Z by lia. reflexivity.
Qed.

Local Close Scope Q_scope.

(** X14. [resize_by_percentage] guards against a percentage that is not
    positive only.  At 100 percent it asks Pillow for the size the image
    has.  At a positive percentage with [width * percentage <= 99] it asks
    Pillow for a width of 0, and with [width * percentage >= 100] for a
    width of at least 1; between the two the rounding of the float product
    and quotient decides.  Sizes are below 2^31, as Pillow has them, and
    the percentage is at most a million, so that no product overflows. *)
Theorem resize_by_percentage_requests
    (px : Pillow) (image : Image) (percentage : Q) :
  0 <= fst (size image) < 2 ^ 31 -> 0 <= snd (size image) < 2 ^ 31 ->
  (percentage <= 1000000)%Q ->
  ((percentage == 100)%Q ->
   resize_by_percentage px image percentage = resize px image (size image)) /\
  ((0 < percentage)%Q ->
   (inject_Z (fst (size image)) * percentage <= 99)%Q ->
   exists new_height,
     resize_by_percentage px image percentage
     = resize px image (0, new_height)) /\
  ((100 <= inject_Z (fst (size image)) * percentage)%Q ->
   exists new_width new_height,
     resize_by_percentage px image percentage
     = resize px image (new_width, new_height) /\ 1 <= new_width).
Proof.
  intros How Hoh _. unfold resize_by_percentage.
  destruct (size image) as [ow oh]. cbn [fst snd] in *.
  pose proof (inject_Z_nonneg ow ltac:(lia)) as Qow.
  rewrite !percentage_product by lia.
  split; [| split].
  - intros Hp.
    assert (E : Qle_bool percentage 0 = false).
    { apply not_true_iff_false. intros H. apply Qle_bool_iff in H. lra. }
    rewrite E.
    assert (Hsize : forall n, 0 <= n < 2 ^ 31 ->
              py_int (fdiv (IEEE.binary64 (inject_Z n * percentage)) 100)
              = n).
    { intros n Hn. apply py_int_of_Z; [lia |]. unfold fdiv.
      rewrite (binary64_comp (inject_Z n * percentage)
                 (inject_Z (n * 100))).
      - rewrite binary64_Z by lia.
        rewrite (binary64_comp _ (inject_Z n)).
        + apply binary64_Z. lia.
        + rewrite inject_Z_mult. change (inject_Z 100) with 100%Q. field.
      - rewrite Hp, inject_Z_mult. reflexivity. }
    now rewrite !Hsize by lia.
  - intros Hp Hsmall.
    assert (E : Qle_bool percentage 0 = false).
    { apply not_true_iff_false. intros H. apply Qle_bool_iff in H. lra. }
    rewrite E. eexists. f_equal. f_equal.
    assert (Hprod : (0 <= inject_Z ow * percentage)%Q) by nra.
    destruct (binary64_between (inject_Z ow * percentage) 0 99)
      as [T0 T1]; try (cbn; lia); try assumption.
    change (inject_Z 0) with 0%Q in T0. change (inject_Z 99) with 99%Q in T1.
    set (t := IEEE.binary64 (inject_Z ow * percentage)) in *.
    assert (U0 : (0 <= fdiv t 100)%Q).
    { unfold fdiv. apply round_nonneg.
      apply Qle_shift_div_l; [reflexivity | lra]. }
    assert (U1 : (fdiv t 100 <= IEEE.binary64 (99 / 100))%Q).
    { unfold fdiv. apply binary64_le.
      apply Qmult_le_compat_r; [exact T1 | discriminate]. }
    assert (C : (IEEE.binary64 (99 / 100) < 1)%Q) by (vm_compute; reflexivity).
    destruct (py_int_bounds (fdiv t 100) 0 U0) as [B0 B1]; [| lia].
    change (inject_Z 0) with 0%Q. lra.
  - intros Hbig.
    assert (Hp : (0 < percentage)%Q).
    { destruct (Qlt_le_dec 0 percentage) as [H | H]; [exact H |]. nra. }
    assert (E : Qle_bool percentage 0 = false).
    { apply not_true_iff_false. intros H. apply Qle_bool_iff in H. lra. }
    rewrite E. eexists. eexists. split; [reflexivity |].
    assert (T : (100 <= IEEE.binary64 (inject_Z ow * percentage))%Q).
    { assert (E100 : (IEEE.binary64 100 == 100)%Q) by (vm_compute; reflexivity).
      rewrite <- E100 at 1. now apply binary64_le. }
    set (t := IEEE.binary64 (inject_Z ow * percentage)) in *.
    assert (U : (1 <= fdiv t 100)%Q).
    { unfold fdiv.
      assert (E1 : (IEEE.binary64 1 == 1)%Q) by (vm_compute; reflexivity).
      rewrite <- E1 at 1. apply binary64_le.
      apply Qle_shift_div_l; [reflexivity | lra]. }
    rewrite py_int_nonneg by lra.
    change 1 with (Qfloor 1). now apply Qfloor_resp_le.
Qed.

Lemma resize_by_percentage_requests_witness :
  resize_by_percentage Plain.px (centre_dot 9) 100
  = resize Plain.px (centre_dot 9) (3, 3) /\
  (exists new_height,
     resize_by_percentage Plain.px (centre_dot 9) 20
     = resize Plain.px (centre_dot 9) (0, new_height)) /\
  exists new_width new_height,
    resize_by_percentage Plain.px (centre_dot 9) 50
    = resize Plain.px (centre_dot 9) (new_width, new_height) /\
    1 <= new_width.
Proof.
  split; [| split].
  - apply (proj1 (resize_by_percentage_requests Plain.px (centre_dot 9) 100
                    ltac:(cbn; lia) ltac:(cbn; lia)
                    ltac:(unfold Qle; cbn; lia))).
    reflexivity.
  - apply (proj1 (proj2 (resize_by_percentage_requests Plain.px
                           (centre_dot 9) 20
                           ltac:(cbn; lia) ltac:(cbn; lia)
                           ltac:(unfold Qle; cbn; lia))));
      [reflexivity | vm_compute; discriminate].
  - apply (proj2 (proj2 (resize_by_percentage_requests Plain.px
                           (centre_dot 9) 50
                           ltac:(cbn; lia) ltac:(cbn; lia)
                           ltac:(unfold Qle; cbn; lia)))).
    vm_compute. discriminate.
Defined.

(** ** Sepia *)

Lemma sepia_plane_spec (m0 m1 m2 : Q) (rs : list Z) :
  forall gs bs n,
  length rs = n -> length gs = n -> length bs = n ->
  length (sepia_plane m0 m1 m2 rs gs bs) = n /\
  Forall sample_ok (sepia_plane m0 m1 m2 rs gs bs).
Proof.
  induction rs as [| r rs IH]; intros [| g gs] [| b bs] n Hr Hg Hb;
    cbn [sepia_plane length] in *; try lia; try (split; [lia | constructor]).
  destruct (IH gs bs (pred n)) as [Hl Hs]; try lia.
  split; [lia |]. constructor; [apply to_uint8_range | exact Hs].
Qed.

Lemma wf_blend (im1 im2 : Image) (alpha : Q) :
  wf_image im1 -> wf_image im2 ->
  mode im2 = mode im1 -> size im2 = size im1 ->
  wf_image (PIL.blend im1 im2 alpha).
Proof.
  intros Hwf1 Hwf2 Hmode Hsize.
  pose proof Hwf1 as [Hb1 Hp1 _]. pose proof Hwf2 as [Hb2 Hp2 Hs2].
  rewrite Hmode in Hb2. rewrite Hsize in Hp2.
  unfold PIL.blend. cbv zeta.
  destruct (Qeq_bool (IEEE.binary32 alpha) 0); [exact Hwf1 |].
  destruct (Qeq_bool (IEEE.binary32 alpha) 1).
  { constructor; cbn [mode size bands]; assumption. }
  constructor; cbn [mode size bands].
  - rewrite zipWith_length. lia.
  - revert Hp1 Hp2. generalize (bands im2). generalize (bands im1).
    induction l as [| p ps IH]; intros [| q qs] H1 H2; cbn [zipWith];
      constructor.
    + inversion H1; inversion H2; subst.
      rewrite zipWith_length. lia.
    + inversion H1; inversion H2; subst. now apply IH.
  - generalize (bands im2). generalize (bands im1).
    induction l as [| p ps IH]; intros [| q qs]; cbn [zipWith];
      constructor; [| apply IH].
    apply zipWith_Forall. intros. apply blend_sample_range.
Qed.

Lemma wf_adjust_saturation (img : Image) (factor : Q) :
  mode img = RGB -> wf_image img ->
  wf_image (adjust_saturation img factor) /\
  mode (adjust_saturation img factor) = RGB /\
  size (adjust_saturation img factor) = size img.
Proof.
  intros Hmode Hwf.
  destruct (wf_RGB_planes img Hmode Hwf)
    as (r & g & b & Himg & Hr & Hg & Hb & Sr & Sg & Sb).
  unfold adjust_saturation, PIL.Color_enhance.
  assert (Hdeg : mode (PIL.convert (mode img) (PIL.convert L img)) = RGB /\
                 size (PIL.convert (mode img) (PIL.convert L img))
                 = size img).
  { rewrite Hmode. unfold PIL.convert. rewrite Hmode. split; reflexivity. }
  destruct Hdeg as [Dm Ds].
  split; [| split].
  - apply wf_blend; try assumption; try congruence.
    rewrite Hmode. rewrite Himg. unfold PIL.convert.
    cbn [mode size bands nth].
    set (y := PIL.luma_plane r g b).
    assert (Hy : length y = npixels (size img)) by now apply luma_plane_length.
    assert (Sy : Forall sample_ok y) by now apply luma_plane_range.
    apply wf_RGB_intro; assumption.
  - now rewrite (proj1 (blend_shape _ _ _)).
  - now rewrite (proj2 (blend_shape _ _ _)).
Qed.

(** X15. With or without NumPy, [apply_sepia] returns an RGB image of the
    size of its input whose samples all lie in [0,255]. *)
Theorem apply_sepia_keeps_shape (numpy : bool) (img : Image) :
  wf_image img ->
  wf_image (apply_sepia numpy img) /\
  mode (apply_sepia numpy img) = RGB /\
  size (apply_sepia numpy img) = size img.
Proof.
  intros Hwf.
  destruct (wf_ensure_RGB img Hwf) as (Hwf' & Hmode' & Hsize').
  unfold apply_sepia. cbv zeta. destruct numpy.
  - destruct (wf_RGB_planes _ Hmode' Hwf')
      as (r & g & b & Himg & Hr & Hg & Hb & Sr & Sg & Sb).
    rewrite Himg. unfold np.fromarray, np.array.
    cbn [np.planes np.shape mode size bands nth]. rewrite Hsize' in *.
    split; [| split; reflexivity].
    apply wf_RGB_intro;
      now apply (sepia_plane_spec _ _ _ r g b (npixels (size img))).
  - destruct (wf_adjust_saturation (ensure_RGB img) (float_of (3 # 10))
                Hmode' Hwf')
      as (Hwfs & Hmodes & Hsizes).
    destruct (wf_adjust_brightness_contrast
                (adjust_saturation (ensure_RGB img) (float_of (3 # 10)))
                10 (float_of (11 # 10)) Hmodes Hwfs)
      as (H1 & H2 & H3).
    split; [exact H1 | split; [exact H2 | congruence]].
Qed.

Lemma apply_sepia_keeps_shape_witness :
  wf_image (centre_dot 250) /\
  wf_image (apply_sepia true (centre_dot 250)) /\
  mode (apply_sepia true (centre_dot 250)) = RGB /\
  size (apply_sepia true (centre_dot 250)) = (3, 3).
Proof.
  assert (Hwf : wf_image (centre_dot 250)).
  { apply wf_RGB_intro; try reflexivity;
      repeat (apply Forall_cons; [unfold sample_ok; lia |]);
      apply Forall_nil. }
  split; [exact Hwf |].
  exact (apply_sepia_keeps_shape true (centre_dot 250) Hwf).
Defined.
